(** * CLISS Infinite Question Bank: parser, bank manager and practice session

    A shallow embedding of [App.tsx] (with the record types of [types.ts]):
    the text-to-question parser [parseGeneratedText], the handlers of the
    [App] component that own the stored bank, and the state of
    [QuestionBankView] that drives a practice session.

    JavaScript strings are sequences of UTF-16 code units; every delimiter
    and symbol the parser looks for is a single code unit, so a string is a
    [list N] here.  [Math.random] and [Date.now] are read from an explicit
    world that is threaded through the code that calls them. *)

From Stdlib Require Import ZArith NArith Lia Bool.
From Stdlib Require Import Strings.String Strings.Ascii.
From stdpp Require Import base list gmap sets.

Set Default Proof Using "Type".
Local Open Scope N_scope.

(* ===================================================================== *)
(** ** JavaScript strings *)
(* ===================================================================== *)

Module JS.

Abbreviation code := N (only parsing).
Abbreviation jsstring := (list N) (only parsing).

(** An ASCII literal of the source, one code unit per character. *)
Fixpoint lit (s : string) : jsstring :=
  match s with
  | EmptyString => []
  | String a s' => N_of_ascii a :: lit s'
  end.

Definition BACKSLASH : code := 0x5C.
Definition NEWLINE : code := 0x0A.
Definition DOLLAR : code := 0x24.
Definition EURO : code := 0x20AC.
Definition YEN : code := 0xA5.
Definition CENT : code := 0xA2.
Definition INCREMENT : code := 0x2206.
Definition SECTION_SIGN : code := 0xA7.
Definition CARET : code := 0x5E.

(** [\s] of a regular expression and the characters [trim] strips:
    WhiteSpace and LineTerminator of ECMAScript. *)
Definition isWhiteSpace (c : code) : bool :=
  (9 <=? c) && (c <=? 13)
  || (c =? 0x20) || (c =? 0xA0) || (c =? 0x1680)
  || (0x2000 <=? c) && (c <=? 0x200A)
  || (c =? 0x2028) || (c =? 0x2029) || (c =? 0x202F)
  || (c =? 0x205F) || (c =? 0x3000) || (c =? 0xFEFF).

(** [\w]: ASCII letters, digits and the underscore. *)
Definition isWordChar (c : code) : bool :=
  (0x30 <=? c) && (c <=? 0x39)
  || (0x41 <=? c) && (c <=? 0x5A)
  || (c =? 0x5F)
  || (0x61 <=? c) && (c <=? 0x7A).

Fixpoint trimStart (s : jsstring) : jsstring :=
  match s with
  | c :: s' => if isWhiteSpace c then trimStart s' else s
  | [] => []
  end.

Definition trimEnd (s : jsstring) : jsstring :=
  reverse (trimStart (reverse s)).

Definition trim (s : jsstring) : jsstring := trimEnd (trimStart s).

(** Truthiness of a string: only the empty string is falsy. *)
Definition truthy (s : jsstring) : bool :=
  match s with [] => false | _ => true end.

Fixpoint startsWith (s p : jsstring) : bool :=
  match p, s with
  | [], _ => true
  | c :: p', d :: s' => (c =? d) && startsWith s' p'
  | _ :: _, [] => false
  end.

(** [s.split(sep)] for a non-empty separator: the leftmost
    occurrences, not overlapping.  [skip] counts the code units of a
    separator just matched that are still to be passed over, [cur] holds
    the current piece, last code unit first. *)
Fixpoint split_from (sep s : jsstring) (skip : nat) (cur : jsstring)
  : list jsstring :=
  match s with
  | [] => [reverse cur]
  | c :: s' =>
      match skip with
      | S k => split_from sep s' k cur
      | O =>
          if startsWith s sep
          then reverse cur :: split_from sep s' (pred (length sep)) []
          else split_from sep s' O (c :: cur)
      end
  end.

Definition split (sep s : jsstring) : list jsstring :=
  split_from sep s O [].

(** [text.replace(/\\([^\s\w])/g, '$1')]: scanning from the left, a
    backslash followed by a code unit that is neither white space nor a
    word character is dropped and the scan resumes after that code
    unit. *)
Fixpoint unescape (s : jsstring) : jsstring :=
  match s with
  | [] => []
  | c :: s' =>
      match s' with
      | d :: s'' =>
          if (c =? BACKSLASH) && negb (isWhiteSpace d || isWordChar d)
          then d :: unescape s''
          else c :: unescape s'
      | [] => [c]
      end
  end.

(** Decimal digits of an integer, as [String(n)] prints a safe integer. *)
Definition digit (d : N) : code := 0x30 + d.

Fixpoint digits_fuel (fuel : nat) (n : N) (acc : jsstring) : jsstring :=
  match fuel with
  | O => acc
  | S fuel' =>
      let acc' := digit (n mod 10) :: acc in
      if n / 10 =? 0 then acc' else digits_fuel fuel' (n / 10) acc'
  end.

Definition string_of_N (n : N) : jsstring :=
  digits_fuel (S (N.to_nat (N.log2 n))) n [].

Definition string_of_Z (z : Z) : jsstring :=
  match z with
  | Zneg p => 0x2D :: string_of_N (Npos p)
  | _ => string_of_N (Z.to_N z)
  end.

(** [s.padStart(targetLength, padString)]: the pad string is repeated and
    cut to the missing length. *)
Definition padStart (s : jsstring) (targetLength : nat) (padString : jsstring)
  : jsstring :=
  let fillLen := (targetLength - length s)%nat in
  if (targetLength <=? length s)%nat || (length padString =? 0)%nat then s
  else take fillLen (concat (replicate fillLen padString)) ++ s.

End JS.

Import JS.

(* ===================================================================== *)
(** ** The world: [Math.random] and [Date.now] *)
(* ===================================================================== *)

(** The k-th call of [Math.random()] returns the double
    [(random_src k mod 2^53) / 2^53], a value of [0, 1); the k-th call of
    [Date.now()] returns [clock_src k] milliseconds. *)
Record World := mkWorld {
  random_src : nat -> Z;
  random_pos : nat;
  clock_src : nat -> Z;
  clock_pos : nat
}.

Definition M (A : Type) : Type := World -> A * World.

Definition ret {A} (a : A) : M A := fun w => (a, w).

Definition bind {A B} (m : M A) (k : A -> M B) : M B :=
  fun w => let (a, w') := m w in k a w'.

Declare Scope world_scope.
Delimit Scope world_scope with world.
Notation "x <- m ;; k" := (bind m (fun x => k))
  (at level 100, m at next level, right associativity) : world_scope.
Local Open Scope world_scope.

Definition RANDOM_DEN : Z := (2 ^ 53)%Z.

(** Numerator, over [RANDOM_DEN], of the double [Math.random()] returns. *)
Definition Math_random : M Z :=
  fun w =>
    ((random_src w (random_pos w) mod RANDOM_DEN)%Z,
     mkWorld (random_src w) (S (random_pos w)) (clock_src w) (clock_pos w)).

Definition Date_now : M Z :=
  fun w =>
    (clock_src w (clock_pos w),
     mkWorld (random_src w) (random_pos w) (clock_src w) (S (clock_pos w))).

Definition initial_world (rnd clk : nat -> Z) : World := mkWorld rnd 0 clk 0.

(** [Math.floor(r * k)] for the double of numerator [r] and an array index
    bound [k]; the product is taken exactly. *)
Definition floor_scaled (r : Z) (k : nat) : nat :=
  Z.to_nat (r * Z.of_nat k / RANDOM_DEN).

(* ===================================================================== *)
(** ** shuffleArray *)
(* ===================================================================== *)

Section Shuffle.
Context {T : Type}.

(** [[a[i], a[j]] = [a[j], a[i]]]: both reads, then the write at [i],
    then the write at [j].  Both indices are inside the array whenever
    the loop below calls it. *)
Definition swap (a : list T) (i j : nat) : list T :=
  match a !! j, a !! i with
  | Some aj, Some ai => <[j:=ai]> (<[i:=aj]> a)
  | _, _ => a
  end.

(** The body of [for (let i = newArray.length - 1; i > 0; i--)], entered
    with the loop variable equal to [i]. *)
Fixpoint shuffle_from (i : nat) (newArray : list T) : M (list T) :=
  match i with
  | O => ret newArray
  | S i' =>
      r <- Math_random ;;
      let j := floor_scaled r (i + 1) in
      shuffle_from i' (swap newArray i j)
  end.

Definition shuffleArray (array : list T) : M (list T) :=
  shuffle_from (length array - 1) array.

End Shuffle.

(* ===================================================================== *)
(** ** Data model ([types.ts]) *)
(* ===================================================================== *)

(** [interface Option { text: string; isCorrect: boolean }] *)
Record Option := mkOption {
  text : jsstring;
  isCorrect : bool
}.

(** [interface Question]; the three fields marked [?] in the source may be
    absent, which is [None] here. *)
Record Question := mkQuestion {
  id : jsstring;
  questionText : jsstring;
  options : list Option;
  explanation : jsstring;
  userNote : option jsstring;
  isMarked : option bool;
  hasBeenPracticed : option bool
}.

(** Truthiness of an optional boolean field: absent counts as false. *)
Definition flag (b : option bool) : bool := default false b.

#[global] Instance Option_eq_dec : EqDecision Option.
Proof. solve_decision. Defined.

#[global] Instance Question_eq_dec : EqDecision Question.
Proof. solve_decision. Defined.

(* ===================================================================== *)
(** ** parseGeneratedText *)
(* ===================================================================== *)

Module Parser.

Definition PAIR_DELIMITER : jsstring := replicate 5 INCREMENT.
Definition OPTIONS_DELIMITER : jsstring := replicate 4 SECTION_SIGN.
Definition EXPLANATION_DELIMITER : jsstring := replicate 5 CARET.

Definition EMPTY_INPUT : jsstring := lit "Input text is empty.".

Definition INVALID_FORMAT : jsstring :=
  lit "Invalid format. The text should contain pairs of sections separated by '"
  ++ PAIR_DELIMITER ++ lit "'.".

Definition PARSING_FAILED : jsstring :=
  lit "Parsing failed. Please check your format. Example: Question Text "
  ++ PAIR_DELIMITER ++ lit " $Correct Option" ++ [NEWLINE; EURO]
  ++ lit "Incorrect Option " ++ OPTIONS_DELIMITER ++ lit " Explanation "
  ++ EXPLANATION_DELIMITER.

(** [.filter(p => p.trim())] *)
Definition nonblank (l : list jsstring) : list jsstring :=
  List.filter (fun p => truthy (trim p)) l.

(** [s[k]]: the one-unit string at index [k], or [undefined]. *)
Definition charAt (s : jsstring) (k : nat) : option jsstring :=
  (fun c => [c]) <$> s !! k.

(** [['$', '€', '¥', '¢'].includes(x)] *)
Definition isSymbol (x : option jsstring) : bool :=
  match x with
  | Some s => bool_decide (s ∈ [[DOLLAR]; [EURO]; [YEN]; [CENT]])
  | None => false
  end.

Definition startsEscaped (trimmedLine : jsstring) : bool :=
  startsWith trimmedLine [BACKSLASH; DOLLAR]
  || startsWith trimmedLine [BACKSLASH; EURO]
  || startsWith trimmedLine [BACKSLASH; YEN]
  || startsWith trimmedLine [BACKSLASH; CENT].

(** The two branches that recognise a symbol at the head of a trimmed
    line: the symbol and the trimmed text after it, or [None] where the
    callback returns [null] at once. *)
Definition recognise (trimmedLine : jsstring)
  : option (option jsstring * jsstring) :=
  if startsEscaped trimmedLine
  then Some (charAt trimmedLine 1, trim (drop 2 trimmedLine))
  else if isSymbol (charAt trimmedLine 0)
  then Some (charAt trimmedLine 0, trim (drop 1 trimmedLine))
  else None.

(** The callback of [optionLines.map]: the option a line yields, or
    [None] for [null], and the set of symbols seen after the line. *)
Definition optionOfLine (seenSymbols : gset jsstring) (line : jsstring)
  : option Option * gset jsstring :=
  match recognise (trim line) with
  | Some (Some symbol, text) =>
      if negb (truthy symbol) || negb (truthy text) then (None, seenSymbols)
      else if bool_decide (symbol ∈ seenSymbols) then (None, seenSymbols)
      else (Some (mkOption text (bool_decide (symbol = [DOLLAR]))),
            {[symbol]} ∪ seenSymbols)
  | _ => (None, seenSymbols)
  end.

Fixpoint mapLines (seenSymbols : gset jsstring) (optionLines : list jsstring)
  : list (option Option) :=
  match optionLines with
  | [] => []
  | line :: rest =>
      let (o, seen') := optionOfLine seenSymbols line in
      o :: mapLines seen' rest
  end.

(** [optionLines.map(...).filter(opt => opt !== null)] with a fresh
    [seenSymbols]. *)
Definition buildOptions (optionLines : list jsstring) : list Option :=
  omap (fun o => o) (mapLines ∅ optionLines).

(** One iteration of the loop up to the options: the trimmed question
    text, the options in line order and the explanation, or [None] where
    the source says [continue]. *)
Definition parsePair (part contentBlock : jsstring)
  : option (jsstring * list Option * jsstring) :=
  let questionText := trim part in
  match nonblank (split OPTIONS_DELIMITER contentBlock) with
  | [optionsPart; explanationContainer] =>
      match nonblank (split EXPLANATION_DELIMITER explanationContainer) with
      | [e] =>
          let explanation := trim e in
          let optionLines :=
            List.filter (fun line => truthy (trim line))
              (split [NEWLINE] (trim optionsPart)) in
          if negb (truthy questionText) || negb (truthy explanation)
             || (length optionLines =? 0)%nat
          then None
          else Some (questionText, buildOptions optionLines, explanation)
      | _ => None
      end
  | _ => None
  end.

(** [options.length > 1 && options.some(o => o.isCorrect)] *)
Definition accepted (opts : list Option) : bool :=
  (1 <? length opts)%nat && existsb isCorrect opts.

Section WithNumberToString.

(** [String(x)] for the double of numerator [x] that [Math.random()]
    returned; the digits JavaScript prints for a double are not
    modelled. *)
Variable double_to_string : Z -> jsstring.

(** [`q_${Date.now()}_${Math.random()}_${i}`] *)
Definition makeId (now r : Z) (i : nat) : jsstring :=
  lit "q_" ++ string_of_Z now ++ lit "_" ++ double_to_string r
  ++ lit "_" ++ string_of_Z (Z.of_nat i).

(** [for (let i = 0; i < parts.length; i += 2)], entered with the loop
    variable equal to [i] and [parts] cut down to its elements from
    index [i] on. *)
Fixpoint parseLoop (i : nat) (parts : list jsstring)
  (newQuestions : list Question) : M (list Question) :=
  match parts with
  | part :: contentBlock :: rest =>
      match parsePair part contentBlock with
      | Some (questionText, opts, explanation) =>
          if accepted opts then
            now <- Date_now ;;
            r <- Math_random ;;
            shuffled <- shuffleArray opts ;;
            parseLoop (i + 2) rest
              (newQuestions ++
               [mkQuestion (makeId now r i) questionText shuffled
                  explanation None None (Some false)])
          else parseLoop (i + 2) rest newQuestions
      | None => parseLoop (i + 2) rest newQuestions
      end
  | _ => ret newQuestions
  end.

Record ParseResult := mkResult {
  newQuestions : list Question;
  error : option jsstring
}.

Definition parseGeneratedText (text : jsstring) : M ParseResult :=
  let processedText := unescape text in
  if negb (truthy (trim processedText))
  then ret (mkResult [] (Some EMPTY_INPUT))
  else
    let parts := nonblank (split PAIR_DELIMITER processedText) in
    if (length parts =? 0)%nat || negb (length parts mod 2 =? 0)%nat
    then ret (mkResult [] (Some INVALID_FORMAT))
    else
      qs <- parseLoop 0 parts [] ;;
      if (length qs =? 0)%nat
      then ret (mkResult [] (Some PARSING_FAILED))
      else ret (mkResult qs None).

End WithNumberToString.

End Parser.

Import Parser.

(* ===================================================================== *)
(** ** The App component: the stored bank and the capacity dialog *)
(* ===================================================================== *)

Module App.

Definition MAX_QUESTIONS : nat := 5000.
Definition DELETION_CHUNK_SIZE : nat := 50.

(** [useState<{ isOpen: boolean, newQuestions: Question[] }>] *)
Record ModalState := mkModal {
  isOpen : bool;
  newQuestions : list Question
}.

(** [questions] is the React state of [useQuestionStorage], [stored] what
    the key [lekolokoQuestions] of [localStorage] holds. *)
Record State := mkState {
  questions : list Question;
  stored : list Question;
  modalState : ModalState
}.

(** What [localStorage.setItem] does when [saveQuestions] calls it. *)
Inductive StorageOutcome := Written | Threw.

Definition setModalState (m : ModalState) (st : State) : State :=
  mkState (questions st) (stored st) m.

(** [saveQuestions]: when [setItem] throws, the [catch] logs the error
    and [setQuestions] is not reached. *)
Definition saveQuestions (o : StorageOutcome) (qs : list Question)
  (st : State) : State :=
  match o with
  | Written => mkState qs qs (modalState st)
  | Threw => st
  end.

Definition handleSaveNewQuestions (o : StorageOutcome)
  (batch : list Question) (st : State) : State :=
  if (MAX_QUESTIONS <? length (questions st) + length batch)%nat
  then setModalState (mkModal true batch) st
  else saveQuestions o (questions st ++ batch) st.

Definition handleModalConfirm (o : StorageOutcome) (st : State) : State :=
  let questionsToKeep := drop DELETION_CHUNK_SIZE (questions st) in
  let updatedQuestions := questionsToKeep ++ newQuestions (modalState st) in
  setModalState (mkModal false []) (saveQuestions o updatedQuestions st).

Definition handleModalCancel (st : State) : State :=
  setModalState (mkModal false []) st.

Definition handleDeleteQuestion (o : StorageOutcome) (questionId : jsstring)
  (st : State) : State :=
  saveQuestions o
    (List.filter (fun q => negb (bool_decide (id q = questionId)))
       (questions st)) st.

Definition setUserNote (n : jsstring) (q : Question) : Question :=
  mkQuestion (id q) (questionText q) (options q) (explanation q)
    (Some n) (isMarked q) (hasBeenPracticed q).

Definition toggleMarked (q : Question) : Question :=
  mkQuestion (id q) (questionText q) (options q) (explanation q)
    (userNote q) (Some (negb (flag (isMarked q)))) (hasBeenPracticed q).

Definition setPracticed (q : Question) : Question :=
  mkQuestion (id q) (questionText q) (options q) (explanation q)
    (userNote q) (isMarked q) (Some true).

(** [questions.map(q => q.id === questionId ? f(q) : q)] *)
Definition updateById (f : Question -> Question) (questionId : jsstring)
  (qs : list Question) : list Question :=
  map (fun q => if bool_decide (id q = questionId) then f q else q) qs.

Definition handleUpdateQuestionNote (o : StorageOutcome)
  (questionId note : jsstring) (st : State) : State :=
  saveQuestions o (updateById (setUserNote note) questionId (questions st)) st.

Definition handleToggleMark (o : StorageOutcome) (questionId : jsstring)
  (st : State) : State :=
  saveQuestions o (updateById toggleMarked questionId (questions st)) st.

Definition handleMarkAsPracticed (o : StorageOutcome) (questionId : jsstring)
  (st : State) : State :=
  saveQuestions o (updateById setPracticed questionId (questions st)) st.

(** The list the dialog shows: [questions.slice(0, DELETION_CHUNK_SIZE)]. *)
Definition questionsToDelete (st : State) : list Question :=
  take DELETION_CHUNK_SIZE (questions st).

(** The user actions that reach the handlers above. *)
Inductive Event :=
| SaveNew (o : StorageOutcome) (batch : list Question)
| ModalConfirm (o : StorageOutcome)
| ModalCancel
| Delete (o : StorageOutcome) (questionId : jsstring)
| UpdateNote (o : StorageOutcome) (questionId note : jsstring)
| ToggleMark (o : StorageOutcome) (questionId : jsstring)
| MarkAsPracticed (o : StorageOutcome) (questionId : jsstring).

Definition step (st : State) (e : Event) : State :=
  match e with
  | SaveNew o batch => handleSaveNewQuestions o batch st
  | ModalConfirm o => handleModalConfirm o st
  | ModalCancel => handleModalCancel st
  | Delete o i => handleDeleteQuestion o i st
  | UpdateNote o i n => handleUpdateQuestionNote o i n st
  | ToggleMark o i => handleToggleMark o i st
  | MarkAsPracticed o i => handleMarkAsPracticed o i st
  end.

Definition run (st : State) (es : list Event) : State := foldl step st es.

End App.

(* ===================================================================== *)
(** ** QuestionBankView: the practice session *)
(* ===================================================================== *)

Module Session.

Record State := mkState {
  newDeck : list Question;
  practicedDeck : list Question;
  deckPosition : nat;
  isPracticingNew : bool;
  selectedAnswer : option jsstring;
  showExplanation : bool;
  isAnalysisMode : bool;
  focusNewOnly : bool;
  note : jsstring;
  eliminatedOptions : gset jsstring;
  time : nat;
  isTimerRunning : bool
}.

(** The initial values of the [useState] calls. *)
Definition initial : State :=
  mkState [] [] 0 true None false false false [] ∅ 0 true.

Definition isNew (q : Question) : bool := negb (flag (hasBeenPracticed q)).
Definition isPracticed (q : Question) : bool := flag (hasBeenPracticed q).

(** [deck.map(dq => questions.find(q => q.id === dq.id)!).filter(Boolean)] *)
Definition updateDeck (questions deck : list Question) : list Question :=
  omap (fun dq => List.find (fun q => bool_decide (id q = id dq)) questions)
    deck.

(** The effect that runs when [questions] changes. *)
Definition onQuestions (questions : list Question) (s : State) : M State :=
  let newQuestions := List.filter isNew questions in
  let practicedQuestions := List.filter isPracticed questions in
  if (length newQuestions =? length (newDeck s))%nat
     && (length practicedQuestions =? length (practicedDeck s))%nat
  then
    ret (mkState (updateDeck questions (newDeck s))
           (updateDeck questions (practicedDeck s))
           (deckPosition s) (isPracticingNew s) (selectedAnswer s)
           (showExplanation s) (isAnalysisMode s) (focusNewOnly s) (note s)
           (eliminatedOptions s) (time s) (isTimerRunning s))
  else
    nd <- shuffleArray newQuestions ;;
    pd <- shuffleArray practicedQuestions ;;
    ret (mkState nd pd 0 (0 <? length newQuestions)%nat None false
           (isAnalysisMode s) (focusNewOnly s) (note s) ∅ 0 true).

Definition activeDeck (s : State) : list Question :=
  if isPracticingNew s then newDeck s else practicedDeck s.

Definition currentQuestion (s : State) : option Question :=
  activeDeck s !! deckPosition s.

(** [handleNext]: the first component is the id handed to
    [onMarkAsPracticed], if the callback is called. *)
Definition handleNext (s : State) : option jsstring * State :=
  match currentQuestion s with
  | None => (None, s)
  | Some cq =>
      let marked := if isPracticingNew s then Some (id cq) else None in
      let isLastInNewDeck :=
        isPracticingNew s
        && (length (newDeck s) <=? deckPosition s + 1)%nat in
      let '(phase, position) :=
        if isLastInNewDeck && negb (focusNewOnly s)
           && (0 <? length (practicedDeck s))%nat
        then (false, 0%nat)
        else if (deckPosition s + 1 <? length (activeDeck s))%nat
        then (isPracticingNew s, (deckPosition s + 1)%nat)
        else (isPracticingNew s, deckPosition s) in
      (marked,
       mkState (newDeck s) (practicedDeck s) position phase None false
         (isAnalysisMode s) (focusNewOnly s) (note s) ∅ 0 true)
  end.

Definition handleReshuffle (s : State) : M State :=
  pd <- shuffleArray (practicedDeck s) ;;
  ret (mkState (newDeck s) pd 0 (isPracticingNew s) None false
         (isAnalysisMode s) (focusNewOnly s) (note s) ∅ 0 true).

Definition handleOptionClick (optionText : jsstring) (s : State) : State :=
  match selectedAnswer s with
  | Some _ => s
  | None =>
      mkState (newDeck s) (practicedDeck s) (deckPosition s)
        (isPracticingNew s) (Some optionText) (showExplanation s)
        (isAnalysisMode s) (focusNewOnly s) (note s) (eliminatedOptions s)
        (time s) false
  end.

Definition handleEliminateClick (optionText : jsstring) (s : State) : State :=
  match selectedAnswer s with
  | Some _ => s
  | None =>
      mkState (newDeck s) (practicedDeck s) (deckPosition s)
        (isPracticingNew s) None (showExplanation s)
        (isAnalysisMode s) (focusNewOnly s) (note s)
        (if bool_decide (optionText ∈ eliminatedOptions s)
         then eliminatedOptions s ∖ {[optionText]}
         else {[optionText]} ∪ eliminatedOptions s)
        (time s) (isTimerRunning s)
  end.

(** The disabled state of the Next button. *)
Definition disableNextButton (s : State) : bool :=
  let isLastInNewDeck :=
    isPracticingNew s && (length (newDeck s) - 1 <=? deckPosition s)%nat in
  let isLastInPracticedDeck :=
    negb (isPracticingNew s)
    && (length (practicedDeck s) - 1 <=? deckPosition s)%nat in
  isLastInPracticedDeck
  || isLastInNewDeck
     && (focusNewOnly s || (length (practicedDeck s) =? 0)%nat).

(** The callback of the one-second interval, which is set only while
    [isTimerRunning]: [setTime(prevTime => prevTime + 1)]. *)
Definition tick (s : State) : State :=
  if isTimerRunning s
  then mkState (newDeck s) (practicedDeck s) (deckPosition s)
         (isPracticingNew s) (selectedAnswer s) (showExplanation s)
         (isAnalysisMode s) (focusNewOnly s) (note s) (eliminatedOptions s)
         (time s + 1)%nat (isTimerRunning s)
  else s.

(** [formatTime] *)
Definition formatTime (seconds : nat) : jsstring :=
  let minutes := (seconds / 60)%nat in
  let remainingSeconds := (seconds mod 60)%nat in
  padStart (string_of_Z (Z.of_nat minutes)) 2 (lit "0") ++ lit ":"
  ++ padStart (string_of_Z (Z.of_nat remainingSeconds)) 2 (lit "0").

(** The effect on [currentQuestion]:
    [setNote(currentQuestion.userNote || '')], or [setNote('')] without a
    current question. *)
Definition syncNote (s : State) : State :=
  let n :=
    match currentQuestion s with
    | Some cq =>
        match userNote cq with
        | Some n => if truthy n then n else []
        | None => []
        end
    | None => []
    end in
  mkState (newDeck s) (practicedDeck s) (deckPosition s) (isPracticingNew s)
    (selectedAnswer s) (showExplanation s) (isAnalysisMode s) (focusNewOnly s)
    n (eliminatedOptions s) (time s) (isTimerRunning s).

(** [setNote(e.target.value)] of the note text area. *)
Definition editNote (n : jsstring) (s : State) : State :=
  mkState (newDeck s) (practicedDeck s) (deckPosition s) (isPracticingNew s)
    (selectedAnswer s) (showExplanation s) (isAnalysisMode s) (focusNewOnly s)
    n (eliminatedOptions s) (time s) (isTimerRunning s).

(** [handleSaveNote]: the arguments handed to [onUpdateNote]; the handler
    exists only in a render that has a current question. *)
Definition handleSaveNote (s : State) : option (jsstring * jsstring) :=
  (fun cq => (id cq, note s)) <$> currentQuestion s.

End Session.

(** [handleParse] of [GenerateView], as far as the bank is concerned: the
    parsed questions are handed to [onSave] unless the parser reported an
    error. *)
Definition handleParse (double_to_string : Z -> jsstring)
  (o : App.StorageOutcome) (text : jsstring) (st : App.State) : M App.State :=
  r <- parseGeneratedText double_to_string text ;;
  match error r with
  | Some e =>
      if truthy e then ret st
      else ret (App.handleSaveNewQuestions o (Parser.newQuestions r) st)
  | None => ret (App.handleSaveNewQuestions o (Parser.newQuestions r) st)
  end.

(** [useState<{ type: 'success' | 'error', message: string } | null>] *)
Inductive FeedbackType := Success | Error.

Record Feedback := mkFeedback {
  type : FeedbackType;
  message : jsstring
}.

(** The message of a successful [handleParse]. *)
Definition successMessage (count : nat) (isCapped : bool) : jsstring :=
  lit "Successfully added " ++ string_of_Z (Z.of_nat count)
  ++ lit " new question(s)!"
  ++ (if isCapped
      then lit " The oldest "
           ++ string_of_Z (Z.of_nat App.DELETION_CHUNK_SIZE)
           ++ lit " questions were removed."
      else []).

(** [handleParse] of [GenerateView], as far as the view itself is
    concerned: the feedback it sets and the text it leaves in the text
    area.  [App] renders the view with [questionCount] equal to
    [questions.length]. *)
Definition handleParse_feedback (double_to_string : Z -> jsstring)
  (questionCount : nat) (text : jsstring) : M (Feedback * jsstring) :=
  r <- parseGeneratedText double_to_string text ;;
  let succeed :=
    let isCapped :=
      (App.MAX_QUESTIONS <? questionCount + length (Parser.newQuestions r))%nat in
    ret (mkFeedback Success
           (successMessage (length (Parser.newQuestions r)) isCapped), []) in
  match error r with
  | Some e => if truthy e then ret (mkFeedback Error e, text) else succeed
  | None => succeed
  end.


(** A click on Next and the render that follows: when the bank was
    replaced, the effect on [questions] runs on the state [handleNext]
    left.  (The note draft, which the effect on [currentQuestion] owns, is
    not followed here.) *)
Definition clickNextAndRender (o : App.StorageOutcome)
  (st : App.State * Session.State) : M (App.State * Session.State) :=
  let (app, s) := st in
  match Session.handleNext s with
  | (Some questionId, s') =>
      let app' := App.handleMarkAsPracticed o questionId app in
      match o with
      | App.Written =>
          s'' <- Session.onQuestions (App.questions app') s' ;;
          ret (app', s'')
      | App.Threw => ret (app', s')
      end
  | (None, s') => ret (app, s')
  end.

(** A click on Save Note with a successful write, and the render that
    follows: [handleUpdateQuestionNote] replaces the bank, the effect on
    [questions] runs, and the effect on [currentQuestion] runs on the
    question object the bank now holds. *)
Definition saveNoteAndRender (st : App.State * Session.State)
  : M (App.State * Session.State) :=
  let (app, s) := st in
  match Session.handleSaveNote s with
  | Some (questionId, n) =>
      let app' := App.handleUpdateQuestionNote App.Written questionId n app in
      s' <- Session.onQuestions (App.questions app') s ;;
      ret (app', Session.syncNote s')
  | None => ret (app, s)
  end.

(** [HistoryView]: the questions listed, newest first, all of them or the
    marked ones. *)
Definition historyItems (showMarkedOnly : bool) (questions : list Question)
  : list Question :=
  reverse (if showMarkedOnly
           then List.filter (fun q => flag (isMarked q)) questions
           else questions).

Local Close Scope N_scope.

(* ===================================================================== *)
(** ** Vocabulary of the statements *)
(* ===================================================================== *)

(** Two worlds whose [Math.random] returns the same doubles, call after
    call, from their current positions on; likewise for [Date.now]. *)
Definition same_draws (w1 w2 : World) : Prop :=
  forall k, random_src w1 (random_pos w1 + k) = random_src w2 (random_pos w2 + k).

Definition same_clock (w1 w2 : World) : Prop :=
  forall k, clock_src w1 (clock_pos w1 + k) = clock_src w2 (clock_pos w2 + k).

(** [related true] asks for the same draws and the same clock readings,
    [related false] for the same draws only. *)
Definition related (c : bool) (w1 w2 : World) : Prop :=
  same_draws w1 w2 /\ (c = true -> same_clock w1 w2).

(** The set [seenSymbols] after the callback has run over [optionLines]. *)
Fixpoint seenAfter (seenSymbols : gset (list N)) (optionLines : list (list N))
  : gset (list N) :=
  match optionLines with
  | [] => seenSymbols
  | line :: rest => seenAfter (snd (optionOfLine seenSymbols line)) rest
  end.

(** A question without its id. *)
Definition eraseId (q : Question) : Question :=
  mkQuestion [] (questionText q) (options q) (explanation q)
    (userNote q) (isMarked q) (hasBeenPracticed q).

(** A question as seen with its id ([true]) or without ([false]). *)
Definition view (c : bool) (q : Question) : Question :=
  if c then q else eraseId q.

(** A question as the parser builds it, plus the practiced flag. *)
Definition sampleQuestion (practiced : bool) (n : nat) : Question :=
  mkQuestion (lit "q_" ++ string_of_Z (Z.of_nat n)) (lit "Q")
    [mkOption (lit "A") true; mkOption (lit "B") false] (lit "E")
    None None (Some practiced).

(** [count] questions numbered from [from] on. *)
Definition sampleBank (practiced : bool) (from count : nat) : list Question :=
  map (sampleQuestion practiced) (seq from count).

(** The app with [qs] stored and the dialog closed. *)
Definition idle (qs : list Question) : App.State :=
  App.mkState qs qs (App.mkModal false []).

(** One well-formed pair, and a text of [n] such pairs. *)
Definition samplePair : list N :=
  lit "Q " ++ PAIR_DELIMITER ++ lit " $A" ++ [NEWLINE; EURO] ++ lit "B "
  ++ OPTIONS_DELIMITER ++ lit " E " ++ EXPLANATION_DELIMITER.

Definition sampleText (n : nat) : list N :=
  concat (replicate n (samplePair ++ PAIR_DELIMITER)).

(** A world whose k-th draw is k/4 (mod 1) and whose clock stands still. *)
Definition sampleWorld : World :=
  initial_world (fun k => Z.of_nat k * 2 ^ 51)%Z (fun _ => 1730000000000%Z).

(** An [isMarked] that is absent, written out as the [false] it counts
    for. *)
Definition normalizeMark (q : Question) : Question :=
  mkQuestion (id q) (questionText q) (options q) (explanation q)
    (userNote q) (Some (flag (isMarked q))) (hasBeenPracticed q).


(** The test of the effect: both decks have the sizes the bank asks for. *)
Definition counts_unchanged (qs : list Question) (s : Session.State) : Prop :=
  length (List.filter Session.isNew qs) = length (Session.newDeck s)
  /\ length (List.filter Session.isPracticed qs)
     = length (Session.practicedDeck s).

(** The minor update: every deck entry is replaced by the first question of
    the bank with its id, in the order of the deck, an entry whose id left
    the bank is dropped, and nothing else changes. *)
Definition refreshed (qs : list Question) (s s' : Session.State) : Prop :=
  Session.newDeck s' = Session.updateDeck qs (Session.newDeck s)
  /\ Session.practicedDeck s' = Session.updateDeck qs (Session.practicedDeck s)
  /\ map id (Session.newDeck s')
     = filter (fun i => i ∈ map id qs) (map id (Session.newDeck s))
  /\ map id (Session.practicedDeck s')
     = filter (fun i => i ∈ map id qs) (map id (Session.practicedDeck s))
  /\ (forall q, q ∈ Session.newDeck s' ++ Session.practicedDeck s' -> q ∈ qs)
  /\ Session.deckPosition s' = Session.deckPosition s
  /\ Session.isPracticingNew s' = Session.isPracticingNew s
  /\ Session.selectedAnswer s' = Session.selectedAnswer s
  /\ Session.showExplanation s' = Session.showExplanation s
  /\ Session.eliminatedOptions s' = Session.eliminatedOptions s
  /\ Session.time s' = Session.time s
  /\ Session.isTimerRunning s' = Session.isTimerRunning s
  /\ Session.note s' = Session.note s
  /\ Session.focusNewOnly s' = Session.focusNewOnly s
  /\ Session.isAnalysisMode s' = Session.isAnalysisMode s.

(** The major change: both decks shuffled afresh from the bank, the
    position, the phase, the answer, the eliminated options and the timer
    reset; the note draft and the two switches are left alone. *)
Definition rebuilt (qs : list Question) (s s' : Session.State) : Prop :=
  Session.newDeck s' ≡ₚ List.filter Session.isNew qs
  /\ Session.practicedDeck s' ≡ₚ List.filter Session.isPracticed qs
  /\ Session.deckPosition s' = 0
  /\ Session.isPracticingNew s' = existsb Session.isNew qs
  /\ Session.selectedAnswer s' = None
  /\ Session.showExplanation s' = false
  /\ Session.eliminatedOptions s' = ∅
  /\ Session.time s' = 0
  /\ Session.isTimerRunning s' = true
  /\ Session.note s' = Session.note s
  /\ Session.focusNewOnly s' = Session.focusNewOnly s
  /\ Session.isAnalysisMode s' = Session.isAnalysisMode s.

(** The changes of the bank that delete a stored question, move one from
    New to Review, or append a batch without eviction. *)
Inductive major_change (app : App.State) : list Question -> Prop :=
| deleted questionId q :
    q ∈ App.questions app -> id q = questionId ->
    major_change app
      (App.questions (App.handleDeleteQuestion App.Written questionId app))
| moved_phase questionId q :
    q ∈ App.questions app -> id q = questionId -> Session.isNew q = true ->
    major_change app
      (App.questions (App.handleMarkAsPracticed App.Written questionId app))
| appended batch :
    batch <> [] ->
    length (App.questions app) + length batch <= App.MAX_QUESTIONS ->
    major_change app
      (App.questions (App.handleSaveNewQuestions App.Written batch app)).

(** A pair with the single option [$A]. *)
Definition loneOptionPair : list N :=
  lit "Q2 " ++ PAIR_DELIMITER ++ lit " $A " ++ OPTIONS_DELIMITER
  ++ lit " E " ++ EXPLANATION_DELIMITER.

(** What the parser makes of [samplePair] in [sampleWorld], the double
    printed as ["0.5"]. *)
Definition sampleParsed : Question :=
  mkQuestion (lit "q_1730000000000_0.5_0") (lit "Q")
    [mkOption (lit "B") false; mkOption (lit "A") true] (lit "E")
    None None (Some false).

(** [pieces.join(sep)] *)
Fixpoint join (sep : list N) (pieces : list (list N)) : list N :=
  match pieces with
  | [] => []
  | [p] => p
  | p :: rest => p ++ sep ++ join sep rest
  end.

(** The number a string of decimal digits writes. *)
Definition number_of_digits (ds : list N) : N :=
  foldl (fun acc d => acc * 10 + (d - 0x30))%N 0%N ds.

Definition isDigit (c : N) : Prop := (0x30 <= c <= 0x39)%N.

(** The four correctness symbols, as one-unit strings. *)
Definition SYMBOLS : list (list N) := [[DOLLAR]; [EURO]; [YEN]; [CENT]].

(** The world after [n] readings of the clock and [k] draws. *)
Definition advance (w : World) (k n : nat) : World :=
  mkWorld (random_src w) (random_pos w + k) (clock_src w) (clock_pos w + n).

(** What the loop appends for the pair at index [j]. *)
Definition parsedAt (double_to_string : Z -> list N) (j : nat) (q : Question)
  : Prop :=
  exists part contentBlock now r qt opts ex,
    parsePair part contentBlock = Some (qt, opts, ex)
    /\ accepted opts = true
    /\ options q ≡ₚ opts
    /\ q = mkQuestion (makeId double_to_string now r j) qt (options q) ex
             None None (Some false).

(** Questions appended at increasing loop indices, none below [i]. *)
Inductive indexedFrom (double_to_string : Z -> list N)
  : nat -> list Question -> Prop :=
| indexed_nil i : indexedFrom double_to_string i []
| indexed_cons i j q qs :
    i <= j -> parsedAt double_to_string j q ->
    indexedFrom double_to_string (j + 2) qs ->
    indexedFrom double_to_string i (q :: qs).

(** The fields no handler of the bank writes. *)
Definition sameContent (q q' : Question) : Prop :=
  id q' = id q /\ questionText q' = questionText q
  /\ options q' = options q /\ explanation q' = explanation q.

(** The questions an event can bring into the bank. *)
Definition incoming (st : App.State) (e : App.Event) : list Question :=
  match e with
  | App.SaveNew _ batch => batch
  | App.ModalConfirm _ => App.newQuestions (App.modalState st)
  | _ => []
  end.

(** Events whose batch, if they carry one, is no larger than the chunk
    that an eviction removes. *)
Definition smallBatch (e : App.Event) : Prop :=
  match e with
  | App.SaveNew _ batch => length batch <= App.DELETION_CHUNK_SIZE
  | _ => True
  end.

(** The bank within its capacity, and the pending batch no larger than the
    chunk. *)
Definition withinCapacity (st : App.State) : Prop :=
  length (App.questions st) <= App.MAX_QUESTIONS
  /\ length (App.newQuestions (App.modalState st)) <= App.DELETION_CHUNK_SIZE.

(** Events whose write to storage, if they make one, fails. *)
Definition writeFails (e : App.Event) : Prop :=
  match e with
  | App.SaveNew o _ | App.ModalConfirm o | App.Delete o _
  | App.UpdateNote o _ _ | App.ToggleMark o _ | App.MarkAsPracticed o _ =>
      o = App.Threw
  | App.ModalCancel => True
  end.

(** The four symbols, as code units. *)
Definition SYMBOL_CODES : list N := [DOLLAR; EURO; YEN; CENT].

(** A section of a generated text as the format expects it: not empty,
    without white space at either end, and free of the backslash and of
    the code units the three delimiters are made of. *)
Definition plain (x : list N) : Prop :=
  x <> [] /\ trim x = x
  /\ Forall (fun c => c ∉ [BACKSLASH; INCREMENT; SECTION_SIGN; CARET]) x.

(** The text of the example in the message of the last error, with the
    four sections as parameters:
    [Question Text ∆∆∆∆∆ $Correct Option\n€Incorrect Option §§§§ Explanation ^^^^^]. *)
Definition documentedFormat (qt a b e : list N) : list N :=
  (qt ++ lit " ") ++ PAIR_DELIMITER
  ++ ((lit " " ++ ((DOLLAR :: a) ++ [NEWLINE] ++ (EURO :: b)) ++ lit " ")
      ++ OPTIONS_DELIMITER
      ++ ((lit " " ++ e ++ lit " ") ++ EXPLANATION_DELIMITER ++ [])).

(* ===================================================================== *)
(** ** The definitions on small inputs *)
(* ===================================================================== *)

Example trim_ex : trim (lit "  a b  ") = lit "a b".
Proof. reflexivity. Qed.

Example split_ex :
  split (lit "^^") (lit "a^^^b^^") = [lit "a"; lit "^b"; []].
Proof. reflexivity. Qed.

Example split_empty_ex : split (lit "x") [] = [[]].
Proof. reflexivity. Qed.

Example unescape_ex :
  unescape (lit "\[a\n \\$5 \") = lit "[a\n \$5 \".
Proof. reflexivity. Qed.

Example string_of_Z_ex :
  string_of_Z 1730000000000 = lit "1730000000000" /\ string_of_Z 0 = lit "0".
Proof. split; reflexivity. Qed.

Example shuffle_ex :
  fst (shuffleArray [1; 2; 3; 4]%nat
         (initial_world (fun k => Z.of_nat k * 2 ^ 51)%Z (fun _ => 0%Z)))
  = [3; 2; 4; 1]%nat.
Proof. vm_compute. reflexivity. Qed.

(** The example of the specification:
    ["Q1 ∆∆∆∆∆ $Correct\n€Wrong §§§§ Because. ^^^^^"]. *)
Example parse_ex :
  fst (parseGeneratedText (fun _ => lit "0.5")
         (lit "Q1 " ++ PAIR_DELIMITER ++ lit " $Correct" ++ [NEWLINE; EURO]
          ++ lit "Wrong " ++ OPTIONS_DELIMITER ++ lit " Because. "
          ++ EXPLANATION_DELIMITER)
         (initial_world (fun _ => 0%Z) (fun _ => 1730000000000%Z)))
  = mkResult
      [mkQuestion (lit "q_1730000000000_0.5_0") (lit "Q1")
         [mkOption (lit "Wrong") false; mkOption (lit "Correct") true]
         (lit "Because.") None None (Some false)]
      None.
Proof. vm_compute. reflexivity. Qed.

Example parse_errors_ex :
  let w := initial_world (fun _ => 0%Z) (fun _ => 0%Z) in
  fst (parseGeneratedText (fun _ => []) (lit "   ") w)
  = mkResult [] (Some EMPTY_INPUT)
  /\ fst (parseGeneratedText (fun _ => []) (lit "  \.  ") w)
     = mkResult [] (Some INVALID_FORMAT)
  /\ fst (parseGeneratedText (fun _ => [])
            (lit "Q " ++ PAIR_DELIMITER ++ lit " no options here") w)
     = mkResult [] (Some PARSING_FAILED).
Proof. vm_compute. repeat split; reflexivity. Qed.

(* ===================================================================== *)
(** ** Facts about [shuffleArray] *)
(* ===================================================================== *)

Section ShuffleFacts.
Context {T : Type}.
Implicit Types (a : list T) (x y : T).

Lemma insert_swap_head a j x y :
  a !! j = Some y -> y :: <[j:=x]> a ≡ₚ x :: a.
Proof.
  revert j. induction a as [|z a IH]; intros [|j] Hj; simplify_eq/=.
  - apply perm_swap.
  - rewrite (perm_swap z y), (IH _ Hj). apply perm_swap.
Qed.

Lemma swap_Permutation a i j : swap a i j ≡ₚ a.
Proof.
  unfold swap.
  destruct (a !! j) as [aj|] eqn:Hj; [|done].
  destruct (a !! i) as [ai|] eqn:Hi; [|done].
  revert i j Hi Hj. induction a as [|z a IH]; intros [|i] [|j] Hi Hj;
    simplify_eq/=.
  - done.
  - by apply insert_swap_head.
  - by apply insert_swap_head.
  - f_equiv. by apply IH.
Qed.

Lemma shuffle_from_Permutation i a w : fst (shuffle_from i a w) ≡ₚ a.
Proof.
  revert a w. induction i as [|i IH]; intros a w; [done|].
  cbn [shuffle_from]. unfold bind. cbn [Math_random].
  rewrite IH. apply swap_Permutation.
Qed.

Lemma shuffleArray_Permutation a w : fst (shuffleArray a w) ≡ₚ a.
Proof. apply shuffle_from_Permutation. Qed.

(** The index drawn when the loop variable is [i] lies in [0, i], so
    both reads of [swap] hit the array. *)
Lemma floor_scaled_bound r k :
  (0 <= r < RANDOM_DEN)%Z -> (0 < k)%nat -> (floor_scaled r k < k)%nat.
Proof.
  intros Hr Hk. unfold floor_scaled.
  assert (r * Z.of_nat k / RANDOM_DEN < Z.of_nat k)%Z.
  { apply Z.div_lt_upper_bound; [unfold RANDOM_DEN; lia|]. nia. }
  assert (0 <= r * Z.of_nat k / RANDOM_DEN)%Z.
  { apply Z.div_pos; [nia | unfold RANDOM_DEN; lia]. }
  lia.
Qed.

Lemma Math_random_range w :
  (0 <= fst (Math_random w) < RANDOM_DEN)%Z.
Proof. cbn. apply Z.mod_pos_bound. unfold RANDOM_DEN. lia. Qed.

Lemma shuffle_index_in_range i w :
  (floor_scaled (fst (Math_random w)) (i + 1) <= i)%nat.
Proof.
  pose proof (floor_scaled_bound _ (i + 1) (Math_random_range w)). lia.
Qed.

End ShuffleFacts.

(* ===================================================================== *)
(** ** Worlds that agree from their current positions on *)
(* ===================================================================== *)

Lemma same_shift (f g : nat -> Z) p q :
  (forall k, f (p + k) = g (q + k)) -> forall k, f (S p + k) = g (S q + k).
Proof.
  intros H k. replace (S p + k) with (p + S k) by lia.
  replace (S q + k) with (q + S k) by lia. apply H.
Qed.

Lemma Math_random_related c w1 w2 :
  related c w1 w2 ->
  fst (Math_random w1) = fst (Math_random w2)
  /\ related c (snd (Math_random w1)) (snd (Math_random w2)).
Proof.
  intros [Hd Hc]. split; [|split].
  - cbn. specialize (Hd 0). rewrite !Nat.add_0_r in Hd. by rewrite Hd.
  - unfold same_draws. cbn. by apply same_shift.
  - intros ->. exact (Hc eq_refl).
Qed.

Lemma Date_now_related c w1 w2 :
  related c w1 w2 ->
  (c = true -> fst (Date_now w1) = fst (Date_now w2))
  /\ related c (snd (Date_now w1)) (snd (Date_now w2)).
Proof.
  intros [Hd Hc]. split; [|split].
  - intros ->. cbn. specialize (Hc eq_refl 0).
    by rewrite !Nat.add_0_r in Hc.
  - exact Hd.
  - intros ->. unfold same_clock. cbn. apply same_shift. by apply Hc.
Qed.

Lemma shuffle_from_related {T} c i (a : list T) w1 w2 :
  related c w1 w2 ->
  fst (shuffle_from i a w1) = fst (shuffle_from i a w2)
  /\ related c (snd (shuffle_from i a w1)) (snd (shuffle_from i a w2)).
Proof.
  revert a w1 w2. induction i as [|i IH]; intros a w1 w2 H; [done|].
  cbn [shuffle_from]. unfold bind.
  destruct (Math_random_related c w1 w2 H) as [Hr Hw].
  destruct (Math_random w1) as [r1 w1'], (Math_random w2) as [r2 w2'].
  cbn in Hr, Hw. subst r2. by apply IH.
Qed.

Lemma shuffleArray_related {T} c (a : list T) w1 w2 :
  related c w1 w2 ->
  fst (shuffleArray a w1) = fst (shuffleArray a w2)
  /\ related c (snd (shuffleArray a w1)) (snd (shuffleArray a w2)).
Proof. apply shuffle_from_related. Qed.

(* ===================================================================== *)
(** ** Facts about the option lines *)
(* ===================================================================== *)

Lemma mapLines_app seen l1 l2 :
  mapLines seen (l1 ++ l2) = mapLines seen l1 ++ mapLines (seenAfter seen l1) l2.
Proof.
  revert seen. induction l1 as [|line l1 IH]; intros seen; [done|].
  cbn [app mapLines seenAfter].
  destruct (optionOfLine seen line) as [o seen'] eqn:E. cbn.
  by rewrite IH.
Qed.

Lemma optionOfLine_seen_grows seen line :
  seen ⊆ snd (optionOfLine seen line).
Proof.
  unfold optionOfLine.
  destruct (recognise (trim line)) as [[[symbol|] txt]|]; cbn; try done.
  repeat case_match; cbn; set_solver.
Qed.

Lemma optionOfLine_duplicate seen line symbol txt :
  recognise (trim line) = Some (Some symbol, txt) ->
  symbol ∈ seen ->
  optionOfLine seen line = (None, seen).
Proof.
  intros Hrec Hin. unfold optionOfLine. rewrite Hrec.
  destruct (negb (truthy symbol) || negb (truthy txt)); [done|].
  by rewrite bool_decide_eq_true_2.
Qed.

Lemma optionOfLine_text seen line o :
  fst (optionOfLine seen line) = Some o -> text o <> [].
Proof.
  unfold optionOfLine.
  destruct (recognise (trim line)) as [[[symbol|] txt]|]; cbn; try done.
  destruct (truthy symbol), txt as [|c txt]; cbn; try done.
  case_bool_decide; cbn; [done|]. by intros [= <-].
Qed.

Lemma mapLines_text seen optionLines o :
  Some o ∈ mapLines seen optionLines -> text o <> [].
Proof.
  revert seen. induction optionLines as [|line rest IH]; intros seen.
  - by intros ?%elem_of_nil.
  - cbn [mapLines].
    destruct (optionOfLine seen line) as [o' seen'] eqn:E.
    intros [Heq|Hin]%elem_of_cons.
    + apply (optionOfLine_text seen line). by rewrite E, Heq.
    + by apply (IH seen').
Qed.

Lemma buildOptions_text optionLines o :
  o ∈ buildOptions optionLines -> text o <> [].
Proof.
  unfold buildOptions. intros (o' & Hin & Ho)%list_elem_of_omap.
  subst o'. by apply (mapLines_text ∅ optionLines).
Qed.

Lemma buildOptions_drop_duplicate l1 dup l2 symbol txt :
  recognise (trim dup) = Some (Some symbol, txt) ->
  symbol ∈ seenAfter ∅ l1 ->
  buildOptions (l1 ++ dup :: l2) = buildOptions (l1 ++ l2).
Proof.
  intros Hrec Hin. unfold buildOptions.
  rewrite !mapLines_app. cbn [mapLines].
  rewrite (optionOfLine_duplicate _ _ _ _ Hrec Hin).
  by rewrite !omap_app.
Qed.

Lemma parsePair_text part contentBlock qt opts ex o :
  parsePair part contentBlock = Some (qt, opts, ex) ->
  o ∈ opts -> text o <> [].
Proof.
  unfold parsePair. intros H Ho.
  repeat case_match; simplify_eq. by eapply buildOptions_text.
Qed.

Lemma accepted_spec opts :
  accepted opts = true <->
  2 <= length opts /\ exists o, o ∈ opts /\ isCorrect o = true.
Proof.
  unfold accepted. rewrite andb_true_iff, Nat.ltb_lt, existsb_exists.
  setoid_rewrite <- list_elem_of_In. done.
Qed.

(* ===================================================================== *)
(** ** Facts about the loop over the pairs *)
(* ===================================================================== *)

Lemma pairs_ind {A} (P : list A -> Prop) :
  P [] -> (forall x, P [x]) -> (forall x y l, P l -> P (x :: y :: l)) ->
  forall l, P l.
Proof.
  intros H0 H1 H2.
  assert (forall l, P l /\ forall x, P (x :: l)) as H.
  { induction l as [|y l [IHa IHb]]; split; auto. }
  intros l. apply H.
Qed.

Section LoopFacts.
Variable double_to_string : Z -> list N.

Local Abbreviation parseLoop := (parseLoop double_to_string).
Local Abbreviation makeId := (makeId double_to_string).

(** What one accepted pair appends. *)
Lemma parseLoop_accept i part contentBlock rest acc w qt opts ex :
  parsePair part contentBlock = Some (qt, opts, ex) ->
  accepted opts = true ->
  exists q w',
    parseLoop i (part :: contentBlock :: rest) acc w
    = parseLoop (i + 2) rest (acc ++ [q]) w'
    /\ questionText q = qt /\ options q ≡ₚ opts /\ explanation q = ex
    /\ userNote q = None /\ isMarked q = None
    /\ hasBeenPracticed q = Some false.
Proof.
  intros Hp Ha. cbn [Parser.parseLoop]. rewrite Hp, Ha. unfold bind.
  destruct (Date_now w) as [now w1].
  destruct (Math_random w1) as [r w2].
  pose proof (shuffleArray_Permutation opts w2) as Hperm.
  destruct (shuffleArray opts w2) as [sh w3]. cbn in Hperm.
  eexists _, w3. split; [reflexivity|]. cbn. done.
Qed.

(** What a rejected or skipped pair does: nothing. *)
Lemma parseLoop_skip i part contentBlock rest acc w :
  (forall qt opts ex, parsePair part contentBlock = Some (qt, opts, ex) ->
                      accepted opts = false) ->
  parseLoop i (part :: contentBlock :: rest) acc w
  = parseLoop (i + 2) rest acc w.
Proof.
  intros H. cbn [Parser.parseLoop].
  destruct (parsePair part contentBlock) as [[[qt opts] ex]|]; [|done].
  by rewrite (H qt opts ex).
Qed.

Lemma parseLoop_prefix parts i acc w :
  acc `prefix_of` fst (parseLoop i parts acc w).
Proof.
  revert i acc w. induction parts as [| |part contentBlock rest IH]
    using pairs_ind; intros i acc w; [done..|].
  destruct (parsePair part contentBlock) as [[[qt opts] ex]|] eqn:Hp.
  - destruct (accepted opts) eqn:Ha.
    + destruct (parseLoop_accept i _ _ rest acc w _ _ _ Hp Ha)
        as (q & w' & -> & _).
      etrans; [|apply IH]. by apply prefix_app_r.
    + rewrite parseLoop_skip; [apply IH|]. intros; congruence.
  - rewrite parseLoop_skip; [apply IH|]. intros; congruence.
Qed.

(** A property every accepted candidate establishes holds of every
    question the loop returns. *)
Lemma parseLoop_Forall (P : Question -> Prop) :
  (forall part contentBlock qt opts ex q,
      parsePair part contentBlock = Some (qt, opts, ex) ->
      accepted opts = true ->
      questionText q = qt -> options q ≡ₚ opts -> explanation q = ex ->
      P q) ->
  forall parts i acc w,
    Forall P acc -> Forall P (fst (parseLoop i parts acc w)).
Proof.
  intros HP parts.
  induction parts as [| |part contentBlock rest IH] using pairs_ind;
    intros i acc w Hacc; [done..|].
  destruct (parsePair part contentBlock) as [[[qt opts] ex]|] eqn:Hp.
  - destruct (accepted opts) eqn:Ha.
    + destruct (parseLoop_accept i _ _ rest acc w _ _ _ Hp Ha)
        as (q & w' & -> & Hq & Ho & He & _).
      apply IH. apply Forall_app. split; [done|].
      apply Forall_singleton. by eapply HP.
    + rewrite parseLoop_skip; [by apply IH|]. intros; congruence.
  - rewrite parseLoop_skip; [by apply IH|]. intros; congruence.
Qed.

Lemma parseGeneratedText_Forall (P : Question -> Prop) :
  (forall part contentBlock qt opts ex q,
      parsePair part contentBlock = Some (qt, opts, ex) ->
      accepted opts = true ->
      questionText q = qt -> options q ≡ₚ opts -> explanation q = ex ->
      P q) ->
  forall txt w,
    Forall P (Parser.newQuestions
                (fst (parseGeneratedText double_to_string txt w))).
Proof.
  intros HP txt w. unfold parseGeneratedText.
  repeat (case_match; try by cbn).
  unfold bind.
  pose proof (parseLoop_Forall P HP
    (nonblank (split PAIR_DELIMITER (unescape txt))) 0 [] w (Forall_nil_2 _)).
  destruct (parseLoop _ _ _ _) as [qs w'].
  by case_match.
Qed.

End LoopFacts.

(* ===================================================================== *)
(** ** What the result of the parser depends on *)
(* ===================================================================== *)

Section Dependence.
Variable double_to_string : Z -> list N.

Lemma parseLoop_related c parts :
  forall i acc1 acc2 w1 w2,
    related c w1 w2 ->
    map (view c) acc1 = map (view c) acc2 ->
    map (view c) (fst (parseLoop double_to_string i parts acc1 w1))
    = map (view c) (fst (parseLoop double_to_string i parts acc2 w2))
    /\ related c (snd (parseLoop double_to_string i parts acc1 w1))
         (snd (parseLoop double_to_string i parts acc2 w2)).
Proof.
  induction parts as [| |part contentBlock rest IH] using pairs_ind;
    intros i acc1 acc2 w1 w2 Hw Hacc; [done..|].
  cbn [parseLoop].
  destruct (parsePair part contentBlock) as [[[qt opts] ex]|];
    [|by apply IH].
  destruct (accepted opts); [|by apply IH].
  unfold bind.
  destruct (Date_now_related c w1 w2 Hw) as [Hnow Hw1].
  destruct (Date_now w1) as [n1 w1a], (Date_now w2) as [n2 w2a].
  cbn [fst snd] in Hnow, Hw1.
  destruct (Math_random_related c w1a w2a Hw1) as [Hr Hw2].
  destruct (Math_random w1a) as [r1 w1b], (Math_random w2a) as [r2 w2b].
  cbn [fst snd] in Hr, Hw2. subst r2.
  destruct (shuffleArray_related c opts w1b w2b Hw2) as [Hs Hw3].
  destruct (shuffleArray opts w1b) as [s1 w1c],
           (shuffleArray opts w2b) as [s2 w2c].
  cbn [fst snd] in Hs, Hw3. subst s2.
  apply IH; [done|].
  rewrite !map_app, Hacc. f_equal. cbn [map]. f_equal.
  destruct c; cbn [view]; [|done].
  by rewrite (Hnow eq_refl).
Qed.

Lemma parseGeneratedText_related c txt w1 w2 :
  related c w1 w2 ->
  let r1 := fst (parseGeneratedText double_to_string txt w1) in
  let r2 := fst (parseGeneratedText double_to_string txt w2) in
  error r1 = error r2
  /\ map (view c) (Parser.newQuestions r1)
     = map (view c) (Parser.newQuestions r2).
Proof.
  intros Hw. unfold parseGeneratedText.
  destruct (negb (truthy (trim (unescape txt)))); [done|].
  destruct (_ || _); [done|].
  unfold bind.
  destruct (parseLoop_related c
    (nonblank (split PAIR_DELIMITER (unescape txt))) 0 [] [] w1 w2 Hw eq_refl)
    as [Hqs _].
  destruct (parseLoop _ _ _ _ w1) as [qs1 w1'],
           (parseLoop _ _ _ _ w2) as [qs2 w2'].
  cbn [fst snd] in Hqs.
  assert (length qs1 = length qs2) as Hlen.
  { by rewrite <- (length_map (view c) qs1), Hqs, length_map. }
  rewrite Hlen. by destruct (length qs2 =? 0)%nat.
Qed.

End Dependence.

Lemma view_true_map qs : map (view true) qs = qs.
Proof. induction qs; cbn; congruence. Qed.

(* ===================================================================== *)
(** ** The sample inputs *)
(* ===================================================================== *)

Lemma length_sampleBank practiced from count :
  length (sampleBank practiced from count) = count.
Proof. unfold sampleBank. by rewrite length_map, length_seq. Qed.

(* ===================================================================== *)
(** ** The bank: capacity, eviction, cancelling, marking *)
(* ===================================================================== *)

Section BankFacts.
Import App.

Lemma handleSaveNewQuestions_over o batch st :
  MAX_QUESTIONS < length (questions st) + length batch ->
  handleSaveNewQuestions o batch st
  = mkState (questions st) (stored st) (mkModal true batch).
Proof.
  intros H. unfold handleSaveNewQuestions.
  by rewrite (proj2 (Nat.ltb_lt _ _) H).
Qed.

Lemma handleSaveNewQuestions_fits o batch st :
  length (questions st) + length batch <= MAX_QUESTIONS ->
  handleSaveNewQuestions o batch st = saveQuestions o (questions st ++ batch) st.
Proof.
  intros H. unfold handleSaveNewQuestions.
  by rewrite (proj2 (Nat.ltb_ge _ _) H).
Qed.

(** The plain append keeps the bank within the capacity. *)
Lemma append_within_capacity batch st :
  length (questions st) + length batch <= MAX_QUESTIONS ->
  questions (handleSaveNewQuestions Written batch st) = questions st ++ batch
  /\ length (questions (handleSaveNewQuestions Written batch st))
     <= MAX_QUESTIONS.
Proof.
  intros H. rewrite handleSaveNewQuestions_fits by done. cbn.
  rewrite length_app. done.
Qed.

(** The size of the bank after a confirmed eviction. *)
Lemma confirm_length st :
  length (questions (handleModalConfirm Written st))
  = length (questions st) - DELETION_CHUNK_SIZE
    + length (newQuestions (modalState st)).
Proof. cbn. by rewrite length_app, length_drop. Qed.

Lemma updateById_twice f g questionId qs :
  (forall q, id (f q) = id q) ->
  updateById g questionId (updateById f questionId qs)
  = updateById (fun q => g (f q)) questionId qs.
Proof.
  intros Hid. unfold updateById. rewrite map_map.
  apply map_ext. intros q.
  destruct (decide (id q = questionId)) as [E|E].
  - rewrite (bool_decide_eq_true_2 (id q = questionId)) by done.
    by rewrite bool_decide_eq_true_2 by (by rewrite Hid).
  - rewrite (bool_decide_eq_false_2 (id q = questionId)) by done.
    by rewrite bool_decide_eq_false_2.
Qed.

Lemma updateById_id f questionId qs :
  (forall q, q ∈ qs -> id q = questionId -> f q = q) ->
  updateById f questionId qs = qs.
Proof.
  intros H. unfold updateById.
  rewrite <- (map_id qs) at 2. apply map_ext_in.
  intros q Hq%list_elem_of_In. case_bool_decide; [by apply H|done].
Qed.

End BankFacts.

(** C1: the code at the failing input.  A bank of 5000 questions, a pasted
    text of 51 well-formed pairs: the parser returns 51 questions, the
    capacity dialog opens, and after the user confirms the bank holds
    [MAX_QUESTIONS + 1] questions. *)
Theorem confirm_exceeds_capacity (double_to_string : Z -> list N) :
  let st0 := idle (sampleBank true 0 App.MAX_QUESTIONS) in
  let st1 :=
    fst (handleParse double_to_string App.Written (sampleText 51) st0
           sampleWorld) in
  let st2 := App.handleModalConfirm App.Written st1 in
  length (App.questions st0) = App.MAX_QUESTIONS
  /\ App.isOpen (App.modalState st1) = true
  /\ length (App.newQuestions (App.modalState st1)) = 51
  /\ length (App.questions st2) = App.MAX_QUESTIONS + 1
  /\ App.MAX_QUESTIONS < length (App.questions st2).
Proof.
  cbv zeta.
  assert (length (App.questions (App.handleModalConfirm App.Written
            (fst (handleParse double_to_string App.Written (sampleText 51)
                    (idle (sampleBank true 0 App.MAX_QUESTIONS)) sampleWorld))))
          = App.MAX_QUESTIONS + 1) as H.
  { vm_compute. reflexivity. }
  rewrite H. split; [apply length_sampleBank|].
  split; [vm_compute; reflexivity|].
  split; [vm_compute; reflexivity|].
  split; [reflexivity|]. lia.
Qed.

(** A bank shorter than the chunk loses all its questions: with 10
    questions stored and a batch of 4991, the eviction is triggered
    (5001 > 5000), the dialog lists the 10 stored questions and the
    confirmed result is the batch alone. *)
Lemma eviction_of_short_bank :
  let st := idle (sampleBank true 0 10) in
  let batch := sampleBank false 10 4991 in
  let st' :=
    App.handleModalConfirm App.Written
      (App.handleSaveNewQuestions App.Written batch st) in
  App.MAX_QUESTIONS < length (App.questions st) + length batch
  /\ App.questionsToDelete st = App.questions st
  /\ App.questions st' = batch.
Proof.
  cbv zeta.
  assert (App.MAX_QUESTIONS
          < length (App.questions (idle (sampleBank true 0 10)))
            + length (sampleBank false 10 4991)) as Hover.
  { cbn [idle App.questions]. rewrite !length_sampleBank.
    apply Nat.ltb_lt. lazy. reflexivity. }
  split; [exact Hover|].
  rewrite handleSaveNewQuestions_over by exact Hover.
  split; reflexivity.
Qed.



(** C3: when the add would exceed the capacity the dialog opens with the
    batch pending and nothing is saved; declining closes the dialog and
    empties the pending batch, the bank in memory and in storage being
    what they were.  The state reached is the one a cancel reaches with no
    batch ever submitted, so nothing that happens later depends on the
    batch, and a later confirm appends nothing. *)
Theorem cancel_discards_batch (o : App.StorageOutcome)
  (batch : list Question) (st : App.State) :
  App.MAX_QUESTIONS < length (App.questions st) + length batch ->
  let st1 := App.handleSaveNewQuestions o batch st in
  let st2 := App.handleModalCancel st1 in
  App.modalState st1 = App.mkModal true batch
  /\ App.questions st1 = App.questions st
  /\ App.stored st1 = App.stored st
  /\ App.questions st2 = App.questions st
  /\ App.stored st2 = App.stored st
  /\ App.modalState st2 = App.mkModal false []
  /\ st2 = App.handleModalCancel st
  /\ (forall es, App.run st2 es = App.run (App.handleModalCancel st) es)
  /\ (forall o',
        App.questions (App.handleModalConfirm o' st2)
        = match o' with
          | App.Written => drop App.DELETION_CHUNK_SIZE (App.questions st)
          | App.Threw => App.questions st
          end).
Proof.
  intros Hover. cbv zeta.
  rewrite handleSaveNewQuestions_over by exact Hover.
  repeat (split; [reflexivity|]).
  intros [|]; cbn; [apply app_nil_r|reflexivity].
Qed.

Lemma cancel_discards_batch_witness :
  let st := idle (sampleBank true 0 4995) in
  let batch := sampleBank false 4995 10 in
  App.MAX_QUESTIONS < length (App.questions st) + length batch
  /\ App.handleModalCancel (App.handleSaveNewQuestions App.Written batch st)
     = st.
Proof.
  cbv zeta.
  assert (App.MAX_QUESTIONS
          < length (App.questions (idle (sampleBank true 0 4995)))
            + length (sampleBank false 4995 10)) as Hover.
  { apply Nat.ltb_lt. lazy. reflexivity. }
  split; [exact Hover|].
  destruct (cancel_discards_batch App.Written _ _ Hover)
    as (_ & _ & _ & _ & _ & _ & -> & _).
  reflexivity.
Defined.

(** C8, as stated, fails: a question as the parser leaves it has no
    [isMarked]; two toggles leave it with [isMarked] set to [false], and
    the bank is not the one it was. *)
Lemma toggle_twice_sets_unset_mark :
  let st := idle [sampleQuestion false 0] in
  let questionId := id (sampleQuestion false 0) in
  (exists q, q ∈ App.questions st /\ id q = questionId)
  /\ App.questions
       (App.handleToggleMark App.Written questionId
          (App.handleToggleMark App.Written questionId st))
     <> App.questions st.
Proof.
  cbv zeta. split.
  - exists (sampleQuestion false 0). split; [apply list_elem_of_here|done].
  - vm_compute. discriminate.
Qed.

(** C8, amended: two toggles of [questionId] leave every question with
    another id as it was, and change of a question with that id nothing
    but an absent [isMarked], which becomes the [false] it counted for;
    the bank is back in its original state when every question with that
    id had [isMarked] set.  One toggle flips the flag. *)
Theorem toggle_twice (questionId : list N) (st : App.State) :
  let st1 := App.handleToggleMark App.Written questionId st in
  let st2 := App.handleToggleMark App.Written questionId st1 in
  App.questions st1 = App.updateById App.toggleMarked questionId (App.questions st)
  /\ (forall q, flag (isMarked (App.toggleMarked q)) = negb (flag (isMarked q)))
  /\ App.questions st2 = App.updateById normalizeMark questionId (App.questions st)
  /\ map flag (map isMarked (App.questions st2))
     = map flag (map isMarked (App.questions st))
  /\ ((forall q, q ∈ App.questions st -> id q = questionId ->
                 isMarked q <> None) ->
      App.questions st2 = App.questions st).
Proof.
  cbv zeta.
  assert (App.questions
            (App.handleToggleMark App.Written questionId
               (App.handleToggleMark App.Written questionId st))
          = App.updateById normalizeMark questionId (App.questions st)) as H2.
  { unfold App.handleToggleMark, App.saveQuestions. cbn [App.questions].
    rewrite updateById_twice by done.
    unfold App.updateById. apply map_ext. intros q.
    case_bool_decide; [|done].
    unfold App.toggleMarked, normalizeMark. cbn. by rewrite negb_involutive. }
  split; [reflexivity|]. split; [reflexivity|]. split; [exact H2|].
  rewrite H2. split.
  - unfold App.updateById. rewrite !map_map. apply map_ext. intros q.
    case_bool_decide; [|done]. cbn. by destruct (isMarked q).
  - intros Hset. apply updateById_id. intros q Hq Hid.
    specialize (Hset q Hq Hid). destruct q as [? ? ? ? ? [b|] ?]; [done|].
    by cbn in Hset.
Qed.

Lemma toggle_twice_witness :
  let q := App.toggleMarked (sampleQuestion false 0) in
  let st := idle [q; sampleQuestion true 1] in
  (forall q', q' ∈ App.questions st -> id q' = id q -> isMarked q' <> None)
  /\ App.questions
       (App.handleToggleMark App.Written (id q)
          (App.handleToggleMark App.Written (id q) st))
     = App.questions st.
Proof.
  cbv zeta.
  assert (forall q', q' ∈ App.questions
                       (idle [App.toggleMarked (sampleQuestion false 0);
                              sampleQuestion true 1]) ->
                     id q' = id (App.toggleMarked (sampleQuestion false 0)) ->
                     isMarked q' <> None) as Hset.
  { intros q' Hq Hid. cbn [idle App.questions] in Hq.
    apply elem_of_cons in Hq as [->|Hq]; [done|].
    apply list_elem_of_singleton in Hq as ->. vm_compute in Hid. discriminate. }
  split; [exact Hset|].
  exact (proj2 (proj2 (proj2 (proj2 (toggle_twice _ _)))) Hset).
Defined.

(* ===================================================================== *)
(** ** The practice session: decks and the Next button *)
(* ===================================================================== *)

Section SessionFacts.
Import Session.

Lemma find_by_id_Some qs i q :
  List.find (fun q' => bool_decide (id q' = i)) qs = Some q ->
  q ∈ qs /\ id q = i.
Proof.
  intros [Hin Hid]%find_some. split; [by apply list_elem_of_In|].
  by apply bool_decide_eq_true in Hid.
Qed.

Lemma find_by_id_None qs i :
  List.find (fun q' => bool_decide (id q' = i)) qs = None ->
  i ∉ map id qs.
Proof.
  intros Hnone (q & -> & Hq)%list_elem_of_fmap.
  apply list_elem_of_In in Hq.
  pose proof (find_none _ _ Hnone q Hq) as H. cbn in H.
  by apply bool_decide_eq_false in H.
Qed.

Lemma updateDeck_ids qs deck :
  map id (updateDeck qs deck) = filter (fun i => i ∈ map id qs) (map id deck).
Proof.
  unfold updateDeck. induction deck as [|dq deck IH]; [done|].
  cbn [omap list_omap map]. rewrite filter_cons.
  destruct (List.find _ qs) as [q|] eqn:E.
  - apply find_by_id_Some in E as [Hin Hid].
    rewrite decide_True.
    + cbn. by rewrite Hid, IH.
    + rewrite <- Hid. apply list_elem_of_fmap. by exists q.
  - apply find_by_id_None in E. by rewrite decide_False.
Qed.

Lemma updateDeck_elem qs deck q : q ∈ updateDeck qs deck -> q ∈ qs.
Proof.
  unfold updateDeck. intros (dq & _ & Hfind)%list_elem_of_omap.
  by apply find_by_id_Some in Hfind as [? _].
Qed.

Lemma length_filter_split qs :
  length (List.filter isNew qs) + length (List.filter isPracticed qs)
  = length qs.
Proof.
  induction qs as [|q qs IH]; [done|]. cbn. unfold isNew, isPracticed in *.
  destruct (flag (hasBeenPracticed q)); cbn; lia.
Qed.

Lemma filter_nonempty_existsb {A} (f : A -> bool) l :
  (0 <? length (List.filter f l)) = existsb f l.
Proof.
  induction l as [|x l IH]; [done|]. cbn. by destruct (f x).
Qed.

Lemma onQuestions_refresh qs s w :
  counts_unchanged qs s ->
  snd (onQuestions qs s w) = w /\ refreshed qs s (fst (onQuestions qs s w)).
Proof.
  intros [Hn Hp]. unfold onQuestions.
  rewrite Hn, Hp, !Nat.eqb_refl. cbn [andb ret fst snd].
  split; [done|]. unfold refreshed. cbn.
  rewrite !updateDeck_ids. repeat (split; [done|]).
  split; [|done].
  intros q [H|H]%elem_of_app; by eapply updateDeck_elem.
Qed.

Lemma onQuestions_rebuild qs s w :
  ~ counts_unchanged qs s -> rebuilt qs s (fst (onQuestions qs s w)).
Proof.
  intros Hc. unfold onQuestions.
  destruct (_ && _) eqn:E.
  { exfalso. apply Hc. apply andb_true_iff in E as [E1 E2].
    by apply Nat.eqb_eq in E1, E2. }
  unfold bind.
  pose proof (shuffleArray_Permutation (List.filter isNew qs) w) as Hnd.
  destruct (shuffleArray (List.filter isNew qs) w) as [nd w1].
  pose proof (shuffleArray_Permutation (List.filter isPracticed qs) w1) as Hpd.
  destruct (shuffleArray (List.filter isPracticed qs) w1) as [pd w2].
  unfold rebuilt. cbn in *. repeat (split; [done|]).
  split; [|done]. apply filter_nonempty_existsb.
Qed.

Lemma length_filter_lt {A} (f : A -> bool) l x :
  x ∈ l -> f x = false -> length (List.filter f l) < length l.
Proof.
  intros Hin Hf. induction Hin as [x l|x y l Hin IH].
  - cbn. rewrite Hf. pose proof (List.filter_length_le f l). lia.
  - specialize (IH Hf). cbn. destruct (f y); cbn; lia.
Qed.

Lemma setPracticed_fewer_new questionId qs :
  length (List.filter isNew (App.updateById App.setPracticed questionId qs))
  <= length (List.filter isNew qs)
  /\ ((exists q, q ∈ qs /\ id q = questionId /\ isNew q = true) ->
      length (List.filter isNew (App.updateById App.setPracticed questionId qs))
      < length (List.filter isNew qs)).
Proof.
  induction qs as [|q qs [IHle IHlt]].
  { split; [done|]. intros (q & Hq%elem_of_nil & _). done. }
  cbn [App.updateById map List.filter].
  fold (App.updateById App.setPracticed questionId qs).
  case_bool_decide as Hid.
  - change (isNew (App.setPracticed q)) with false. cbn iota.
    split; [destruct (isNew q); cbn; lia|].
    intros (q' & [->|Hq']%elem_of_cons & Hid' & Hnew).
    + rewrite Hnew. cbn. lia.
    + destruct (isNew q); cbn; [lia|]. apply IHlt. eauto.
  - split; [destruct (isNew q); cbn; lia|].
    intros (q' & [->|Hq']%elem_of_cons & Hid' & Hnew); [done|].
    destruct (isNew q); cbn; [apply -> Nat.succ_lt_mono|]; apply IHlt; eauto.
Qed.

Lemma major_change_counts app s qs' :
  counts_unchanged (App.questions app) s ->
  major_change app qs' ->
  ~ counts_unchanged qs' s.
Proof.
  intros [Hn Hp] Hmajor [Hn' Hp'].
  pose proof (length_filter_split (App.questions app)) as Hold.
  pose proof (length_filter_split qs') as Hnew.
  assert (length qs' = length (App.questions app)) as Hsame by lia.
  destruct Hmajor as [questionId q Hq Hid|questionId q Hq Hid Hisnew
                     |batch Hne Hfits].
  - cbn in Hsame.
    pose proof (length_filter_lt
      (fun q' => negb (bool_decide (id q' = questionId)))
      (App.questions app) q Hq) as Hlt.
    cbn beta in Hlt. rewrite bool_decide_eq_true_2 in Hlt by done.
    specialize (Hlt eq_refl). lia.
  - cbn in Hn'.
    destruct (setPracticed_fewer_new questionId (App.questions app))
      as [_ Hlt].
    assert (exists q0, q0 ∈ App.questions app /\ id q0 = questionId
                       /\ isNew q0 = true) as Hex by eauto.
    specialize (Hlt Hex). lia.
  - rewrite handleSaveNewQuestions_fits in Hsame by done.
    cbn in Hsame. rewrite length_app in Hsame.
    destruct batch; [done|]. cbn in Hsame. lia.
Qed.

End SessionFacts.






(* ===================================================================== *)
(** ** The parser: what it accepts and what its result depends on *)
(* ===================================================================== *)

Lemma recognise_symbol_truthy trimmedLine symbol txt :
  recognise trimmedLine = Some (Some symbol, txt) -> truthy symbol = true.
Proof.
  unfold recognise, charAt. intros H.
  repeat case_match; simplify_eq;
    match goal with
    | E : _ <$> _ = Some _ |- _ =>
        apply fmap_Some in E as (c & _ & ->); reflexivity
    end.
Qed.

Lemma seenAfter_grows seen optionLines : seen ⊆ seenAfter seen optionLines.
Proof.
  revert seen. induction optionLines as [|line rest IH]; intros seen; [done|].
  cbn [seenAfter]. etrans; [apply (optionOfLine_seen_grows seen line)|apply IH].
Qed.

(** A symbol is in [seenSymbols] once a line that carries it with a
    non-empty text has been mapped. *)
Lemma seenAfter_used seen optionLines earlier symbol txt :
  earlier ∈ optionLines ->
  recognise (trim earlier) = Some (Some symbol, txt) -> txt <> [] ->
  symbol ∈ seenAfter seen optionLines.
Proof.
  intros Hin Hrec Htxt. revert seen.
  induction Hin as [earlier rest|earlier line rest Hin IH]; intros seen.
  - cbn [seenAfter]. apply seenAfter_grows.
    unfold optionOfLine. rewrite Hrec.
    rewrite (recognise_symbol_truthy _ _ _ Hrec).
    destruct txt; [done|]. cbn [truthy negb orb].
    case_bool_decide; cbn [snd]; set_solver.
  - cbn [seenAfter]. by apply IH.
Qed.

(** C4: every question the parser returns has at least two options and
    at least one correct option; a pair whose options fail that test is
    passed over: the loop goes on with the questions it had and the world
    as it was. *)
Theorem parsed_questions_valid (double_to_string : Z -> list N) :
  (forall txt w q,
      q ∈ Parser.newQuestions (fst (parseGeneratedText double_to_string txt w)) ->
      2 <= length (options q)
      /\ exists o, o ∈ options q /\ isCorrect o = true)
  /\ (forall i part contentBlock rest acc w qt opts ex,
      parsePair part contentBlock = Some (qt, opts, ex) ->
      ~ (2 <= length opts /\ exists o, o ∈ opts /\ isCorrect o = true) ->
      parseLoop double_to_string i (part :: contentBlock :: rest) acc w
      = parseLoop double_to_string (i + 2) rest acc w).
Proof.
  split.
  - intros txt w q Hq.
    pose proof (parseGeneratedText_Forall double_to_string
      (fun q => 2 <= length (options q)
                /\ exists o, o ∈ options q /\ isCorrect o = true)) as H.
    eapply Forall_forall in H; [exact H| |exact Hq].
    clear. intros part contentBlock qt opts ex q _ Hacc _ Hperm _.
    apply accepted_spec in Hacc as [Hlen (o & Ho & Hc)].
    rewrite Hperm. split; [done|]. exists o. by rewrite Hperm.
  - intros i part contentBlock rest acc w qt opts ex Hp Hbad.
    apply parseLoop_skip. intros qt' opts' ex' Hp'.
    rewrite Hp in Hp'. simplify_eq.
    destruct (accepted opts') eqn:E; [|done].
    by apply accepted_spec in E.
Qed.

Lemma parsed_questions_valid_witness :
  let r :=
    fst (parseGeneratedText (fun _ => lit "0.5")
           (samplePair ++ PAIR_DELIMITER ++ loneOptionPair) sampleWorld) in
  (sampleParsed ∈ Parser.newQuestions r
   /\ 2 <= length (options sampleParsed)
   /\ exists o, o ∈ options sampleParsed /\ isCorrect o = true)
  /\ (parsePair (lit "Q2 ")
        (lit " $A " ++ OPTIONS_DELIMITER ++ lit " E " ++ EXPLANATION_DELIMITER)
      = Some (lit "Q2", [mkOption (lit "A") true], lit "E")
      /\ ~ (2 <= length [mkOption (lit "A") true]
            /\ exists o, o ∈ [mkOption (lit "A") true] /\ isCorrect o = true)
      /\ parseLoop (fun _ => lit "0.5") 2
           [lit "Q2 ";
            lit " $A " ++ OPTIONS_DELIMITER ++ lit " E "
            ++ EXPLANATION_DELIMITER] [sampleParsed] sampleWorld
         = parseLoop (fun _ => lit "0.5") (2 + 2) [] [sampleParsed] sampleWorld).
Proof.
  cbv zeta.
  assert (sampleParsed
          ∈ Parser.newQuestions
              (fst (parseGeneratedText (fun _ => lit "0.5")
                      (samplePair ++ PAIR_DELIMITER ++ loneOptionPair)
                      sampleWorld))) as Hin.
  { replace (Parser.newQuestions _) with [sampleParsed]
      by (vm_compute; reflexivity).
    apply list_elem_of_here. }
  assert (parsePair (lit "Q2 ")
            (lit " $A " ++ OPTIONS_DELIMITER ++ lit " E "
             ++ EXPLANATION_DELIMITER)
          = Some (lit "Q2", [mkOption (lit "A") true], lit "E")) as Hp.
  { vm_compute. reflexivity. }
  assert (~ (2 <= length [mkOption (lit "A") true]
             /\ exists o, o ∈ [mkOption (lit "A") true] /\ isCorrect o = true))
    as Hbad.
  { intros [Hlen _]. cbn in Hlen. lia. }
  split.
  - split; [exact Hin|].
    exact (proj1 (parsed_questions_valid _) _ _ _ Hin).
  - split; [exact Hp|]. split; [exact Hbad|].
    exact (proj2 (parsed_questions_valid _) 2 _ _ [] [sampleParsed]
             sampleWorld _ _ _ Hp Hbad).
Defined.

(** C5: a line whose symbol an earlier line of the block has already
    used (the earlier line carried the symbol with a text) is dropped by
    itself: the options are those the block yields without that line.  The
    pair is then accepted, with these options in some order, as soon as at
    least two of them are left and one is correct, that is, came with
    [$]. *)
Theorem duplicate_symbol_line_dropped (double_to_string : Z -> list N)
  (l1 : list (list N)) (earlier dup : list N) (l2 : list (list N))
  (symbol t1 t2 : list N) :
  earlier ∈ l1 ->
  recognise (trim earlier) = Some (Some symbol, t1) -> t1 <> [] ->
  recognise (trim dup) = Some (Some symbol, t2) ->
  buildOptions (l1 ++ dup :: l2) = buildOptions (l1 ++ l2)
  /\ forall i part contentBlock rest acc w qt ex,
      parsePair part contentBlock
      = Some (qt, buildOptions (l1 ++ dup :: l2), ex) ->
      2 <= length (buildOptions (l1 ++ l2)) ->
      (exists o, o ∈ buildOptions (l1 ++ l2) /\ isCorrect o = true) ->
      exists q,
        (acc ++ [q]) `prefix_of`
          fst (parseLoop double_to_string i (part :: contentBlock :: rest)
                 acc w)
        /\ questionText q = qt
        /\ options q ≡ₚ buildOptions (l1 ++ l2)
        /\ explanation q = ex.
Proof.
  intros Hin Hearlier Ht1 Hdup.
  assert (buildOptions (l1 ++ dup :: l2) = buildOptions (l1 ++ l2)) as Heq.
  { eapply buildOptions_drop_duplicate; [exact Hdup|].
    by eapply seenAfter_used. }
  split; [exact Heq|].
  intros i part contentBlock rest acc w qt ex Hp Hlen Hcorrect.
  rewrite Heq in Hp.
  assert (accepted (buildOptions (l1 ++ l2)) = true) as Hacc
    by (by apply accepted_spec).
  destruct (parseLoop_accept double_to_string i _ _ rest acc w _ _ _ Hp Hacc)
    as (q & w' & -> & Hq & Ho & He & _).
  exists q. split; [apply parseLoop_prefix|done].
Qed.

(** The example of the specification: a second [$] line is dropped and the
    question is accepted with the two options that are left. *)
Lemma duplicate_symbol_line_dropped_witness :
  let l1 := [lit "$A"] in
  let dup := lit "$B" in
  let l2 := [EURO :: lit "C"] in
  let contentBlock :=
    lit " $A" ++ [NEWLINE] ++ lit "$B" ++ [NEWLINE; EURO] ++ lit "C "
    ++ OPTIONS_DELIMITER ++ lit " E " ++ EXPLANATION_DELIMITER in
  (lit "$A" ∈ l1
   /\ recognise (trim (lit "$A")) = Some (Some [DOLLAR], lit "A")
   /\ recognise (trim dup) = Some (Some [DOLLAR], lit "B"))
  /\ buildOptions (l1 ++ dup :: l2)
     = [mkOption (lit "A") true; mkOption (lit "C") false]
  /\ exists q,
      ([] ++ [q]) `prefix_of`
        fst (parseLoop (fun _ => lit "0.5") 0 [lit "Q1 "; contentBlock] []
               sampleWorld)
      /\ questionText q = lit "Q1"
      /\ options q ≡ₚ buildOptions (l1 ++ l2)
      /\ explanation q = lit "E".
Proof.
  cbv zeta.
  assert (lit "$A" ∈ [lit "$A"]) as Hin by apply list_elem_of_here.
  assert (recognise (trim (lit "$A")) = Some (Some [DOLLAR], lit "A")) as He
    by (vm_compute; reflexivity).
  assert (recognise (trim (lit "$B")) = Some (Some [DOLLAR], lit "B")) as Hd
    by (vm_compute; reflexivity).
  assert (lit "A" <> []) as Hne by discriminate.
  destruct (duplicate_symbol_line_dropped (fun _ => lit "0.5")
              [lit "$A"] (lit "$A") (lit "$B") [EURO :: lit "C"]
              [DOLLAR] (lit "A") (lit "B") Hin He Hne Hd) as [Heq Hacc].
  split; [done|]. split.
  - rewrite Heq. vm_compute. reflexivity.
  - apply Hacc.
    + vm_compute. reflexivity.
    + apply Nat.leb_le. vm_compute. reflexivity.
    + exists (mkOption (lit "A") true). split; [|reflexivity].
      replace (buildOptions _)
        with [mkOption (lit "A") true; mkOption (lit "C") false]
        by (vm_compute; reflexivity).
      apply list_elem_of_here.
Defined.

(** C7, as stated, fails: the id of a question contains [Date.now()].
    The same text parsed with the same draws at two readings of the clock
    gives two different results. *)
Lemma parse_result_depends_on_clock :
  let w1 := initial_world (fun _ => 0%Z) (fun _ => 1730000000000%Z) in
  let w2 := initial_world (fun _ => 0%Z) (fun _ => 1730000000001%Z) in
  same_draws w1 w2
  /\ fst (parseGeneratedText (fun _ => lit "0.5") samplePair w1)
     <> fst (parseGeneratedText (fun _ => lit "0.5") samplePair w2)
  /\ map id (Parser.newQuestions
               (fst (parseGeneratedText (fun _ => lit "0.5") samplePair w1)))
     = [lit "q_1730000000000_0.5_0"]
  /\ map id (Parser.newQuestions
               (fst (parseGeneratedText (fun _ => lit "0.5") samplePair w2)))
     = [lit "q_1730000000001_0.5_0"].
Proof.
  cbv zeta. split; [by intros k|].
  split; [vm_compute; discriminate|].
  split; vm_compute; reflexivity.
Qed.

(** C7, amended: the result is a function of the text, the draws of
    [Math.random] and the readings of [Date.now] from the current
    positions on.  With the same text and the same draws, two calls return
    the same error and the same questions up to their ids (the same texts,
    options in the same order, explanations and flags); with the same
    clock readings as well they return the same result, ids included. *)
Theorem parse_determined_by_text_draws_clock
  (double_to_string : Z -> list N) (txt : list N) (w1 w2 : World) :
  same_draws w1 w2 ->
  let r1 := fst (parseGeneratedText double_to_string txt w1) in
  let r2 := fst (parseGeneratedText double_to_string txt w2) in
  error r1 = error r2
  /\ map eraseId (Parser.newQuestions r1) = map eraseId (Parser.newQuestions r2)
  /\ (same_clock w1 w2 -> r1 = r2).
Proof.
  intros Hd. cbv zeta.
  destruct (parseGeneratedText_related double_to_string false txt w1 w2)
    as [Herr Hqs]; [by split|].
  split; [exact Herr|]. split; [exact Hqs|].
  intros Hc.
  destruct (parseGeneratedText_related double_to_string true txt w1 w2)
    as [_ Hqs']; [by split|].
  cbv zeta in *. rewrite !view_true_map in Hqs'.
  destruct (fst (parseGeneratedText double_to_string txt w1)),
           (fst (parseGeneratedText double_to_string txt w2)).
  cbn in *. congruence.
Qed.

Lemma parse_determined_by_text_draws_clock_witness :
  let w1 := initial_world (fun _ => 0%Z) (fun _ => 1730000000000%Z) in
  let w2 :=
    mkWorld (fun k => if (k <? 7)%nat then 5%Z else 0%Z) 7
            (fun k => if (k <? 3)%nat then 0%Z else 1730000000000%Z) 3 in
  (same_draws w1 w2 /\ same_clock w1 w2)
  /\ fst (parseGeneratedText (fun _ => lit "0.5") samplePair w1)
     = fst (parseGeneratedText (fun _ => lit "0.5") samplePair w2).
Proof.
  cbv zeta.
  assert (same_draws
            (initial_world (fun _ => 0%Z) (fun _ => 1730000000000%Z))
            (mkWorld (fun k => if (k <? 7)%nat then 5%Z else 0%Z) 7
               (fun k => if (k <? 3)%nat then 0%Z else 1730000000000%Z) 3))
    as Hd.
  { intros k. cbn [random_src random_pos initial_world].
    by rewrite (proj2 (Nat.ltb_ge (7 + k) 7)) by lia. }
  assert (same_clock
            (initial_world (fun _ => 0%Z) (fun _ => 1730000000000%Z))
            (mkWorld (fun k => if (k <? 7)%nat then 5%Z else 0%Z) 7
               (fun k => if (k <? 3)%nat then 0%Z else 1730000000000%Z) 3))
    as Hc.
  { intros k. cbn [clock_src clock_pos initial_world].
    by rewrite (proj2 (Nat.ltb_ge (3 + k) 3)) by lia. }
  split; [by split|].
  exact (proj2 (proj2 (parse_determined_by_text_draws_clock _ samplePair _ _ Hd))
           Hc).
Defined.

(** C9: a line on which a symbol is recognised and the text after it is
    empty once trimmed yields no option and leaves [seenSymbols] as it
    was, as a line on which no symbol is recognised does; and no option
    of a question the parser returns has the empty string as its text. *)
Theorem no_option_with_empty_text (double_to_string : Z -> list N) :
  (forall seen line symbol,
      recognise (trim line) = Some (symbol, []) ->
      optionOfLine seen line = (None, seen))
  /\ (forall seen line,
      recognise (trim line) = None -> optionOfLine seen line = (None, seen))
  /\ (forall txt w q o,
      q ∈ Parser.newQuestions (fst (parseGeneratedText double_to_string txt w)) ->
      o ∈ options q -> text o <> []).
Proof.
  split; [|split].
  - intros seen line symbol Hrec. unfold optionOfLine. rewrite Hrec.
    destruct symbol as [symbol|]; [|done].
    cbn [truthy negb]. by rewrite orb_true_r.
  - intros seen line Hrec. unfold optionOfLine. by rewrite Hrec.
  - intros txt w q o Hq Ho.
    pose proof (parseGeneratedText_Forall double_to_string
      (fun q => forall o, o ∈ options q -> text o <> [])) as H.
    eapply Forall_forall in H; [by apply H| |exact Hq].
    clear. intros part contentBlock qt opts ex q Hp _ _ Hperm _ o Ho.
    rewrite Hperm in Ho. by eapply parsePair_text.
Qed.

(** The lines ["$   "] and ["x"], and a block that starts with a bare
    [$]: the bare line yields nothing and does not use up the symbol. *)
Lemma no_option_with_empty_text_witness :
  (recognise (trim (lit "$   ")) = Some (Some [DOLLAR], [])
   /\ optionOfLine ∅ (lit "$   ") = (None, ∅))
  /\ (recognise (trim (lit "x")) = None
      /\ optionOfLine ∅ (lit "x") = (None, ∅))
  /\ (sampleParsed
        ∈ Parser.newQuestions
            (fst (parseGeneratedText (fun _ => lit "0.5") samplePair
                    sampleWorld))
      /\ mkOption (lit "A") true ∈ options sampleParsed
      /\ text (mkOption (lit "A") true) <> []).
Proof.
  assert (recognise (trim (lit "$   ")) = Some (Some [DOLLAR], [])) as H1
    by (vm_compute; reflexivity).
  assert (recognise (trim (lit "x")) = None) as H2
    by (vm_compute; reflexivity).
  assert (sampleParsed
          ∈ Parser.newQuestions
              (fst (parseGeneratedText (fun _ => lit "0.5") samplePair
                      sampleWorld))) as Hq.
  { replace (Parser.newQuestions _) with [sampleParsed]
      by (vm_compute; reflexivity).
    apply list_elem_of_here. }
  assert (mkOption (lit "A") true ∈ options sampleParsed) as Ho
    by (right; left).
  destruct (no_option_with_empty_text (fun _ => lit "0.5"))
    as (Hempty & Hnone & Htext).
  split; [split; [exact H1|exact (Hempty ∅ _ _ H1)]|].
  split; [split; [exact H2|exact (Hnone ∅ _ H2)]|].
  split; [exact Hq|]. split; [exact Ho|].
  exact (Htext _ _ _ _ Hq Ho).
Defined.

(* ===================================================================== *)
(** ** More about the string primitives *)
(* ===================================================================== *)

Lemma trimStart_split s :
  exists l, s = l ++ trimStart s /\ forallb isWhiteSpace l = true.
Proof.
  induction s as [|c s (l & Hs & Hl)]; [by exists []|].
  cbn [trimStart]. destruct (isWhiteSpace c) eqn:Hc.
  - exists (c :: l). cbn. rewrite Hc, Hl. split; [congruence|done].
  - by exists [].
Qed.

Lemma trimStart_head s c t : trimStart s = c :: t -> isWhiteSpace c = false.
Proof.
  induction s as [|d s IH]; [done|]. cbn [trimStart].
  destruct (isWhiteSpace d) eqn:Hd; [done|]. by intros [= -> ->].
Qed.

Lemma trimStart_blank s : forallb isWhiteSpace s = true -> trimStart s = [].
Proof.
  induction s as [|c s IH]; [done|]. cbn.
  intros [-> Hs]%andb_true_iff. by apply IH.
Qed.

Lemma trimStart_fixed c s : isWhiteSpace c = false -> trimStart (c :: s) = c :: s.
Proof. intros H. cbn. by rewrite H. Qed.

Lemma forallb_reverse {A} (f : A -> bool) l :
  forallb f (reverse l) = forallb f l.
Proof.
  induction l as [|x l IH]; [done|].
  rewrite reverse_cons, forallb_app, IH. cbn. rewrite andb_true_r.
  apply andb_comm.
Qed.

(** [trim] cuts white space, and nothing else, from both ends. *)
Lemma trim_split s :
  exists l r,
    s = l ++ trim s ++ r
    /\ forallb isWhiteSpace l = true /\ forallb isWhiteSpace r = true.
Proof.
  unfold trim, trimEnd.
  destruct (trimStart_split s) as (l & Hs & Hl).
  destruct (trimStart_split (reverse (trimStart s))) as (r & Hu & Hr).
  exists l, (reverse r). split; [|split; [done|by rewrite forallb_reverse]].
  rewrite <- reverse_app, <- Hu, reverse_involutive. exact Hs.
Qed.

Lemma trim_head s c t : trim s = c :: t -> isWhiteSpace c = false.
Proof.
  intros Ht.
  destruct (trimStart_split (reverse (trimStart s))) as (r & Hu & _).
  apply (f_equal reverse) in Hu.
  rewrite reverse_involutive, reverse_app in Hu.
  fold (trimEnd (trimStart s)) in Hu. fold (trim s) in Hu.
  rewrite Ht in Hu. by apply (trimStart_head s c (t ++ reverse r)).
Qed.

Lemma trim_last s c : last (trim s) = Some c -> isWhiteSpace c = false.
Proof.
  unfold trim, trimEnd. rewrite last_reverse. intros Hh.
  destruct (trimStart (reverse (trimStart s))) as [|d t] eqn:E; [done|].
  cbn in Hh. simplify_eq. by eapply trimStart_head.
Qed.

Lemma trim_blank s : trim s = [] <-> forallb isWhiteSpace s = true.
Proof.
  split.
  - intros Ht. destruct (trim_split s) as (l & r & Hs & Hl & Hr).
    rewrite Ht in Hs. rewrite Hs, forallb_app, Hl. exact Hr.
  - intros Hs. unfold trim. by rewrite (trimStart_blank s Hs).
Qed.

Lemma truthy_trim s : truthy (trim s) = negb (forallb isWhiteSpace s).
Proof.
  destruct (trim s) eqn:E.
  - apply trim_blank in E. by rewrite E.
  - destruct (forallb isWhiteSpace s) eqn:Hs; [|done].
    apply trim_blank in Hs. congruence.
Qed.

Lemma trim_fixed s :
  (forall c, head s = Some c -> isWhiteSpace c = false) ->
  (forall c, last s = Some c -> isWhiteSpace c = false) ->
  trim s = s.
Proof.
  intros Hh Hl. unfold trim, trimEnd.
  assert (trimStart s = s) as ->.
  { destruct s as [|c s]; [done|]. apply trimStart_fixed. by apply Hh. }
  assert (trimStart (reverse s) = reverse s) as ->.
  { destruct (reverse s) as [|c t] eqn:E; [done|].
    apply trimStart_fixed, Hl. by rewrite <- (reverse_involutive s), E,
      last_reverse. }
  apply reverse_involutive.
Qed.

(** [trim] returns its argument without the white space at its two
    ends: what is cut is white space only, the result neither starts nor
    ends with white space, it is empty exactly for a blank string, and
    trimming it again changes nothing. *)
Theorem trim_correct (s : list N) :
  (exists l r,
      s = l ++ trim s ++ r
      /\ forallb isWhiteSpace l = true /\ forallb isWhiteSpace r = true)
  /\ (forall c, head (trim s) = Some c -> isWhiteSpace c = false)
  /\ (forall c, last (trim s) = Some c -> isWhiteSpace c = false)
  /\ (trim s = [] <-> forallb isWhiteSpace s = true)
  /\ trim (trim s) = trim s.
Proof.
  assert (forall c, head (trim s) = Some c -> isWhiteSpace c = false) as Hh.
  { intros c Hc. destruct (trim s) as [|d t] eqn:E; [done|].
    cbn in Hc. simplify_eq. by eapply trim_head. }
  split; [apply trim_split|]. split; [exact Hh|].
  split; [apply trim_last|]. split; [apply trim_blank|].
  apply trim_fixed; [exact Hh|apply trim_last].
Qed.

Lemma startsWith_prefix s p : startsWith s p = true <-> exists t, s = p ++ t.
Proof.
  revert s. induction p as [|c p IH]; intros s.
  - split; [by exists s|by destruct s].
  - destruct s as [|d s]; cbn.
    + split; [done|]. by intros (t & ?).
    + rewrite andb_true_iff, N.eqb_eq, IH. split.
      * intros [-> (t & ->)]. by exists t.
      * intros (t & [= -> ->]). split; [done|by exists t].
Qed.

Lemma split_from_skip sep u t cur :
  split_from sep (u ++ t) (length u) cur = split_from sep t 0 cur.
Proof. induction u as [|c u IH]; [done|]. exact IH. Qed.

Lemma split_from_nonempty sep s skip cur : split_from sep s skip cur <> [].
Proof.
  revert skip cur. induction s as [|c s IH]; intros skip cur; [done|].
  cbn [split_from]. destruct skip; [|apply IH].
  destruct (startsWith (c :: s) sep); [done|apply IH].
Qed.

Lemma join_cons sep p rest :
  rest <> [] -> join sep (p :: rest) = p ++ sep ++ join sep rest.
Proof. by destruct rest. Qed.

Lemma join_split_from sep n :
  sep <> [] ->
  forall s cur,
    length s <= n -> join sep (split_from sep s 0 cur) = reverse cur ++ s.
Proof.
  intros Hsep. induction n as [|n IH]; intros s cur Hn.
  { destruct s; [|cbn in Hn; lia]. cbn. by rewrite app_nil_r. }
  destruct s as [|c s]; [cbn; by rewrite app_nil_r|].
  cbn [split_from]. destruct (startsWith (c :: s) sep) eqn:E.
  - apply startsWith_prefix in E as (t & Ht).
    destruct sep as [|c' sep']; [done|]. cbn in Ht. simplify_eq.
    cbn [length pred]. rewrite split_from_skip.
    rewrite join_cons by apply split_from_nonempty.
    rewrite IH by (cbn in Hn; rewrite length_app in Hn; lia).
    reflexivity.
  - rewrite IH by (cbn in Hn; lia).
    by rewrite reverse_cons, <- app_assoc.
Qed.

(** [split] and [join] are a round trip: joining the pieces of
    [s.split(sep)] with [sep] gives [s] back, and there is always at least
    one piece. *)
Theorem join_split (sep s : list N) :
  sep <> [] -> join sep (split sep s) = s /\ split sep s <> [].
Proof.
  intros Hsep. split; [|apply split_from_nonempty].
  unfold split. by rewrite (join_split_from sep (length s) Hsep s []).
Qed.

Lemma join_split_witness :
  lit "||" <> []
  /\ join (lit "||") (split (lit "||") (lit "a|||b||")) = lit "a|||b||"
  /\ split (lit "||") (lit "a|||b||") <> [].
Proof.
  assert (lit "||" <> []) as H by discriminate.
  split; [exact H|]. exact (join_split (lit "||") (lit "a|||b||") H).
Defined.

Lemma unescape_pair_ind (P : list N -> Prop) :
  P [] -> (forall c, P [c]) ->
  (forall c d s, P s -> P (d :: s) -> P (c :: d :: s)) ->
  forall s, P s.
Proof.
  intros H0 H1 H2.
  assert (forall s, P s /\ forall c, P (c :: s)) as H.
  { induction s as [|d s [IHa IHb]]; split; auto. }
  intros s. apply H.
Qed.

Lemma unescape_cons2 c d s :
  unescape (c :: d :: s)
  = if (c =? BACKSLASH)%N && negb (isWhiteSpace d || isWordChar d)
    then d :: unescape s
    else c :: unescape (d :: s).
Proof. reflexivity. Qed.

Lemma unescape_length s : length (unescape s) <= length s.
Proof.
  induction s as [|c|c d s IH1 IH2] using unescape_pair_ind; [done..|].
  rewrite unescape_cons2. destruct (_ && _); cbn [length] in *; lia.
Qed.

Lemma unescape_no_backslash s : BACKSLASH ∉ s -> unescape s = s.
Proof.
  induction s as [|c|c d s IH1 IH2] using unescape_pair_ind; [done..|].
  intros Hno. rewrite unescape_cons2.
  assert (c <> BACKSLASH) as Hc by (intros ->; apply Hno; left).
  apply N.eqb_neq in Hc. rewrite Hc. cbn [andb].
  rewrite IH2; [done|]. intros H. apply Hno. by right.
Qed.

Lemma unescape_blank s :
  forallb isWhiteSpace (unescape s) = forallb isWhiteSpace s.
Proof.
  induction s as [|c|c d s IH1 IH2] using unescape_pair_ind; [done..|].
  rewrite unescape_cons2. destruct (_ && _) eqn:E.
  - apply andb_true_iff in E as [Hc Hd]. apply N.eqb_eq in Hc. subst c.
    apply negb_true_iff, orb_false_iff in Hd as [Hd _].
    cbn [forallb]. rewrite Hd. by rewrite andb_false_r.
  - cbn [forallb] in *. by rewrite IH2.
Qed.

(** X2: the unescaping of the pasted text never makes it longer, leaves a
    text without backslash as it is, and keeps a blank text blank and a
    non-blank text non-blank. *)
Theorem unescape_correct (s : list N) :
  length (unescape s) <= length s
  /\ (BACKSLASH ∉ s -> unescape s = s)
  /\ forallb isWhiteSpace (unescape s) = forallb isWhiteSpace s.
Proof.
  split; [apply unescape_length|].
  split; [apply unescape_no_backslash|apply unescape_blank].
Qed.

Lemma unescape_correct_witness :
  (BACKSLASH ∉ lit "Q1 [a]")
  /\ unescape (lit "Q1 [a]") = lit "Q1 [a]".
Proof.
  assert (BACKSLASH ∉ lit "Q1 [a]") as H.
  { intros H. apply list_elem_of_In in H. vm_compute in H.
    repeat destruct H as [H|H]; try discriminate H. exact H. }
  split; [exact H|]. exact (proj1 (proj2 (unescape_correct _)) H).
Defined.

(* ===================================================================== *)
(** ** Decimal numbers and the clock display *)
(* ===================================================================== *)

Lemma number_of_digits_snoc ds d :
  number_of_digits (ds ++ [d]) = (number_of_digits ds * 10 + (d - 0x30))%N.
Proof. unfold number_of_digits. by rewrite foldl_app. Qed.

Lemma digit_isDigit n : (n < 10)%N -> isDigit (digit n).
Proof. unfold isDigit, digit. lia. Qed.

Lemma digits_fuel_S fuel n acc :
  digits_fuel (S fuel) n acc
  = if (n / 10 =? 0)%N then digit (n mod 10) :: acc
    else digits_fuel fuel (n / 10) (digit (n mod 10) :: acc).
Proof. reflexivity. Qed.

Lemma digits_fuel_spec fuel :
  forall n acc,
    (n < 2 ^ N.of_nat (S fuel))%N ->
    exists ds,
      digits_fuel (S fuel) n acc = ds ++ acc
      /\ Forall isDigit ds /\ ds <> [] /\ number_of_digits ds = n.
Proof.
  induction fuel as [|fuel IH]; intros n acc Hn.
  - assert (n / 10 = 0)%N as Hq.
    { apply N.div_small. change (2 ^ N.of_nat 1)%N with 2%N in Hn. lia. }
    rewrite digits_fuel_S, Hq. cbn [N.eqb].
    exists [digit (n mod 10)]. split; [done|]. split.
    { apply Forall_singleton, digit_isDigit. by apply N.mod_lt. }
    split; [done|]. unfold number_of_digits, digit. cbn [foldl].
    rewrite N.mod_small by (change (2 ^ N.of_nat 1)%N with 2%N in Hn; lia).
    lia.
  - rewrite digits_fuel_S. destruct (n / 10 =? 0)%N eqn:Hq.
    + apply N.eqb_eq in Hq.
      exists [digit (n mod 10)]. split; [done|]. split.
      { apply Forall_singleton, digit_isDigit. by apply N.mod_lt. }
      split; [done|]. unfold number_of_digits, digit. cbn [foldl].
      pose proof (N.div_mod n 10). lia.
    + assert (n / 10 < 2 ^ N.of_nat (S fuel))%N as Hlt.
      { apply N.Div0.div_lt_upper_bound.
        rewrite (Nat2N.inj_succ (S fuel)), N.pow_succ_r' in Hn. lia. }
      destruct (IH (n / 10)%N (digit (n mod 10) :: acc) Hlt)
        as (ds & Heq & Hds & Hne & Hval).
      exists (ds ++ [digit (n mod 10)]).
      split; [by rewrite Heq, <- app_assoc|]. split.
      { apply Forall_app. split; [done|].
        apply Forall_singleton, digit_isDigit. by apply N.mod_lt. }
      split; [by destruct ds|].
      rewrite number_of_digits_snoc, Hval. unfold digit.
      clear. pose proof (N.div_mod n 10 ltac:(done)) as Hdm.
      generalize dependent (n mod 10)%N. generalize (n / 10)%N. intros. lia.
Qed.

Lemma string_of_N_spec n :
  Forall isDigit (string_of_N n) /\ string_of_N n <> []
  /\ number_of_digits (string_of_N n) = n.
Proof.
  unfold string_of_N.
  destruct (digits_fuel_spec (N.to_nat (N.log2 n)) n []) as (ds & -> & H).
  - rewrite Nat2N.inj_succ, N2Nat.id.
    destruct n as [|p]; [done|]. apply N.log2_spec. lia.
  - by rewrite app_nil_r.
Qed.

Lemma string_of_nat_spec (i : nat) :
  Forall isDigit (string_of_Z (Z.of_nat i))
  /\ number_of_digits (string_of_Z (Z.of_nat i)) = N.of_nat i.
Proof.
  assert (string_of_Z (Z.of_nat i) = string_of_N (N.of_nat i)) as ->.
  { by destruct i. }
  destruct (string_of_N_spec (N.of_nat i)) as (H1 & _ & H2). done.
Qed.

(** The decimal string of a natural number consists of digits only and
    writes that number, so different numbers get different strings. *)
Lemma string_of_nat_inj (i j : nat) :
  string_of_Z (Z.of_nat i) = string_of_Z (Z.of_nat j) -> i = j.
Proof.
  destruct (string_of_nat_spec i) as [_ Hv], (string_of_nat_spec j) as [_ Hv'].
  intros Heq. rewrite Heq, Hv' in Hv. lia.
Qed.

Lemma length_string_of_small (n : nat) :
  n < 100 ->
  length (string_of_Z (Z.of_nat n)) = if n <? 10 then 1 else 2.
Proof.
  intros Hn.
  assert (forallb (fun n => length (string_of_Z (Z.of_nat n))
                            =? (if n <? 10 then 1 else 2)) (seq 0 100) = true)
    as H by (vm_compute; reflexivity).
  rewrite forallb_forall in H. apply Nat.eqb_eq, H, in_seq. lia.
Qed.

Lemma padStart_short s n p :
  n <= length s -> padStart s n p = s.
Proof.
  intros H. unfold padStart. by rewrite (proj2 (Nat.leb_le _ _) H).
Qed.

Lemma padStart_zero_one d :
  padStart [d] 2 (lit "0") = [0x30%N; d].
Proof. reflexivity. Qed.

(** X25: [formatTime] prints minutes, a colon and two digits of seconds,
    the minutes on two digits below 100 minutes and on as many as they
    need from there on; the two numbers read back give the seconds that
    were passed in. *)
Theorem formatTime_correct (seconds : nat) :
  exists mm ss,
    Session.formatTime seconds = mm ++ lit ":" ++ ss
    /\ Forall isDigit mm /\ Forall isDigit ss
    /\ length ss = 2
    /\ length mm = Nat.max 2 (length (string_of_Z (Z.of_nat (seconds / 60))))
    /\ (number_of_digits mm * 60 + number_of_digits ss)%N = N.of_nat seconds.
Proof.
  unfold Session.formatTime.
  set (m := seconds / 60). set (r := seconds mod 60).
  assert (r < 60) as Hr by (apply Nat.mod_upper_bound; lia).
  assert (seconds = m * 60 + r) as Hs.
  { unfold m, r. pose proof (Nat.div_mod_eq seconds 60). lia. }
  assert (forall n,
    Forall isDigit (padStart (string_of_Z (Z.of_nat n)) 2 (lit "0"))
    /\ number_of_digits (padStart (string_of_Z (Z.of_nat n)) 2 (lit "0"))
       = N.of_nat n
    /\ length (padStart (string_of_Z (Z.of_nat n)) 2 (lit "0"))
       = Nat.max 2 (length (string_of_Z (Z.of_nat n)))) as Hpad.
  { intros n. destruct (string_of_nat_spec n) as [Hd Hv].
    destruct (string_of_Z (Z.of_nat n)) as [|d [|d' t]] eqn:E.
    - destruct (string_of_N_spec (N.of_nat n)) as (_ & Hne & _).
      exfalso. apply Hne.
      replace (string_of_N (N.of_nat n)) with (string_of_Z (Z.of_nat n));
        [done|]. by destruct n.
    - rewrite padStart_zero_one. split; [|split; [|done]].
      + constructor; [unfold isDigit; lia|done].
      + rewrite <- Hv. unfold number_of_digits. cbn. lia.
    - rewrite padStart_short by (cbn; lia). split; [done|]. split; [done|].
      cbn [length]. lia. }
  destruct (Hpad m) as (Hm1 & Hm2 & Hm3), (Hpad r) as (Hr1 & Hr2 & Hr3).
  eexists _, _. split; [reflexivity|].
  split; [done|]. split; [done|].
  split; [rewrite Hr3, length_string_of_small by lia; by destruct (r <? 10)|].
  split; [done|]. rewrite Hm2, Hr2. lia.
Qed.

Lemma tick_stopped k s :
  Session.isTimerRunning s = false -> Nat.iter k Session.tick s = s.
Proof.
  intros Hs. induction k as [|k IH]; [done|]. rewrite Nat.iter_succ, IH.
  unfold Session.tick. by rewrite Hs.
Qed.

(** X26: the timer counts only while it runs: a tick adds one second to a
    running timer and leaves a stopped one alone, so after an answer the
    time shown stays what it was, however many ticks follow. *)
Theorem tick_correct (s : Session.State) (optionText : list N) (n : nat) :
  Session.time (Session.tick s)
  = (if Session.isTimerRunning s then Session.time s + 1 else Session.time s)
  /\ (Session.selectedAnswer s = None ->
      Session.time
        (Nat.iter n Session.tick (Session.handleOptionClick optionText s))
      = Session.time s).
Proof.
  split.
  - unfold Session.tick. by destruct (Session.isTimerRunning s).
  - intros Hnone. rewrite tick_stopped.
    + unfold Session.handleOptionClick. by rewrite Hnone.
    + unfold Session.handleOptionClick. by rewrite Hnone.
Qed.

Lemma tick_correct_witness :
  let s :=
    Session.mkState [sampleQuestion false 0] [] 0 true None false false false
      [] ∅ 12 true in
  Session.selectedAnswer s = None
  /\ Session.time (Nat.iter 5 Session.tick s) = 17
  /\ Session.time
       (Nat.iter 5 Session.tick (Session.handleOptionClick (lit "A") s))
     = 12.
Proof.
  cbv zeta. split; [reflexivity|]. split; [reflexivity|].
  exact (proj2 (tick_correct
                  (Session.mkState [sampleQuestion false 0] [] 0 true None
                     false false false [] ∅ 12 true) (lit "A") 5) eq_refl).
Defined.

(* ===================================================================== *)
(** ** More about the parser *)
(* ===================================================================== *)

Lemma advance_0 w : advance w 0 0 = w.
Proof. destruct w. unfold advance. cbn. by rewrite !Nat.add_0_r. Qed.

Lemma advance_advance w k n k' n' :
  advance (advance w k n) k' n' = advance w (k + k') (n + n').
Proof. unfold advance. cbn. by rewrite !Nat.add_assoc. Qed.

Lemma shuffle_from_world {T} i (a : list T) w :
  snd (shuffle_from i a w) = advance w i 0.
Proof.
  revert a w. induction i as [|i IH]; intros a w.
  - cbn. by rewrite advance_0.
  - cbn [shuffle_from]. unfold bind. cbn [Math_random]. rewrite IH.
    unfold advance. cbn. f_equal; lia.
Qed.

Lemma shuffleArray_length {T} (a : list T) (w : World) :
  length (fst (shuffleArray a w)) = length a.
Proof. by rewrite (shuffleArray_Permutation a w). Qed.

Lemma shuffleArray_world {T} (a : list T) (w : World) :
  snd (shuffleArray a w) = advance w (length a - 1) 0.
Proof. apply shuffle_from_world. Qed.

(** X1: [shuffleArray] returns a permutation of its argument (the same
    elements, as often, so the same length) and makes one draw for each
    element but the first: none for an empty or one-element array. *)
Theorem shuffleArray_correct {T} (a : list T) (w : World) :
  fst (shuffleArray a w) ≡ₚ a
  /\ length (fst (shuffleArray a w)) = length a
  /\ snd (shuffleArray a w) = advance w (length a - 1) 0.
Proof.
  split; [apply shuffleArray_Permutation|].
  split; [apply shuffleArray_length|apply shuffleArray_world].
Qed.

Lemma recognise_symbol trimmedLine symbol txt :
  recognise trimmedLine = Some (Some symbol, txt) -> symbol ∈ SYMBOLS.
Proof.
  unfold recognise, startsEscaped, charAt. intros H.
  destruct (_ || _) eqn:E.
  - simplify_eq.
    repeat (apply orb_true_iff in E as [E|E]);
      apply startsWith_prefix in E as (t & ->); cbn in H;
      inversion H; unfold SYMBOLS;
      repeat (first [apply list_elem_of_here | apply list_elem_of_further]).
  - clear E. destruct (isSymbol _) eqn:E; [|done].
    inversion H as [[Hs Ht]]. unfold isSymbol in E. rewrite Hs in E.
    by apply bool_decide_eq_true in E.
Qed.

Lemma mapLines_symbols optionLines :
  forall seen,
  exists syms,
    NoDup syms
    /\ (forall x, x ∈ syms -> (x ∉ seen) /\ x ∈ SYMBOLS)
    /\ map isCorrect (omap (fun o => o) (mapLines seen optionLines))
       = map (fun x => bool_decide (x = [DOLLAR])) syms.
Proof.
  induction optionLines as [|line rest IH]; intros seen.
  { exists []. split; [constructor|]. split; [|done]. by intros x ?%elem_of_nil. }
  cbn [mapLines]. unfold optionOfLine.
  destruct (recognise (trim line)) as [[[symbol|] txt]|] eqn:Hrec;
    try (destruct (IH seen) as (syms & ?); by exists syms).
  destruct (negb (truthy symbol) || negb (truthy txt));
    [destruct (IH seen) as (syms & ?); by exists syms|].
  case_bool_decide as Hseen;
    [destruct (IH seen) as (syms & ?); by exists syms|].
  destruct (IH ({[symbol]} ∪ seen)) as (syms & Hnd & Hin & Hmap).
  exists (symbol :: syms). split; [|split].
  - constructor; [|done]. intros Hs. apply Hin in Hs as [Hs _].
    apply Hs, elem_of_union_l, elem_of_singleton. reflexivity.
  - intros x [->|Hx]%elem_of_cons.
    + split; [done|]. by eapply recognise_symbol.
    + apply Hin in Hx as [Hx ?]. split; [|done].
      intros Hx'. by apply Hx, elem_of_union_r.
  - cbn. by rewrite Hmap.
Qed.

Lemma filter_length_map {A B} (f : A -> bool) (g : B -> bool) l k :
  map f l = map g k -> length (List.filter f l) = length (List.filter g k).
Proof.
  revert k. induction l as [|x l IH]; intros [|y k] H; cbn in H;
    try discriminate H; [done|].
  injection H as Hxy Hl. cbn. rewrite Hxy.
  destruct (g y); cbn; by rewrite (IH k).
Qed.

Lemma NoDup_filter_eq_length (a : list N) syms :
  NoDup syms ->
  length (List.filter (fun x => bool_decide (x = a)) syms) <= 1.
Proof.
  induction 1 as [|x syms Hx Hnd IH]; [cbn; lia|]. cbn [List.filter].
  case_bool_decide as E; [|exact IH]. subst x. cbn [length].
  assert (List.filter (fun x => bool_decide (x = a)) syms = []) as ->;
    [|cbn; lia].
  destruct (List.filter _ syms) as [|y l] eqn:Ef; [done|].
  assert (In y (List.filter (fun x => bool_decide (x = a)) syms)) as Hy
    by (rewrite Ef; by left).
  apply filter_In in Hy as [Hy Hya]. apply bool_decide_eq_true in Hya.
  subst y. by apply list_elem_of_In in Hy.
Qed.

(** The options of one block: at most four, one per symbol, and at most
    one of them correct. *)
Lemma buildOptions_bounds optionLines :
  length (buildOptions optionLines) <= 4
  /\ length (List.filter isCorrect (buildOptions optionLines)) <= 1.
Proof.
  unfold buildOptions.
  destruct (mapLines_symbols optionLines ∅) as (syms & Hnd & Hin & Hmap).
  split.
  - rewrite <- (length_map isCorrect), Hmap, length_map.
    change 4 with (length SYMBOLS). apply submseteq_length.
    apply NoDup_submseteq; [done|]. intros x Hx. by apply Hin.
  - rewrite (filter_length_map _ _ _ _ Hmap).
    by apply NoDup_filter_eq_length.
Qed.

Lemma existsb_filter_length {A} (f : A -> bool) l :
  existsb f l = true -> 1 <= length (List.filter f l).
Proof.
  induction l as [|x l IH]; [done|]. cbn. destruct (f x); cbn; [lia|done].
Qed.

Lemma Permutation_filter_length {A} (f : A -> bool) l k :
  l ≡ₚ k -> length (List.filter f l) = length (List.filter f k).
Proof.
  induction 1 as [|x l k _ IH|x y l|l k m _ IH1 _ IH2]; cbn.
  - done.
  - destruct (f x); cbn; by rewrite IH.
  - by destruct (f x), (f y).
  - congruence.
Qed.

Lemma buildOptions_trimmed optionLines o :
  o ∈ buildOptions optionLines -> trim (text o) = text o.
Proof.
  unfold buildOptions. intros (o' & Hin & ->)%list_elem_of_omap.
  revert Hin. generalize (∅ : gset (list N)).
  induction optionLines as [|line rest IH]; intros seen.
  { by intros ?%elem_of_nil. }
  cbn [mapLines]. destruct (optionOfLine seen line) as [x seen'] eqn:E.
  intros [Heq|Hin]%elem_of_cons; [|by eapply IH].
  subst x. unfold optionOfLine, recognise in E.
  repeat case_match; simplify_eq; cbn [text]; apply trim_correct.
Qed.

Lemma indexedFrom_weaken dts i i' qs :
  i <= i' -> indexedFrom dts i' qs -> indexedFrom dts i qs.
Proof.
  intros Hi H. destruct H as [|i' j q qs Hj Hq Hqs]; [constructor|].
  econstructor; [|done..]. lia.
Qed.

Section LoopShape.
Variable double_to_string : Z -> list N.

Lemma parseLoop_step i part contentBlock rest acc w :
  (parseLoop double_to_string i (part :: contentBlock :: rest) acc w
   = parseLoop double_to_string (i + 2) rest acc w)
  \/ (exists q,
        parsedAt double_to_string i q
        /\ parseLoop double_to_string i (part :: contentBlock :: rest) acc w
           = parseLoop double_to_string (i + 2) rest (acc ++ [q])
               (advance w (length (options q)) 1)).
Proof.
  cbn [parseLoop].
  destruct (parsePair part contentBlock) as [[[qt opts] ex]|] eqn:Hp;
    [|by left].
  destruct (accepted opts) eqn:Ha; [|by left].
  right. unfold bind. cbn [Date_now Math_random].
  set (w2 := mkWorld _ _ _ _).
  pose proof (shuffleArray_Permutation opts w2) as Hperm.
  pose proof (shuffleArray_length opts w2) as Hlen.
  pose proof (shuffleArray_world opts w2) as Hw.
  destruct (shuffleArray opts w2) as [sh w3]. cbn [fst snd] in *.
  eexists. split; [|f_equal].
  - exists part, contentBlock. do 5 eexists.
    split; [exact Hp|]. split; [exact Ha|]. split; [|reflexivity]. exact Hperm.
  - rewrite Hw. unfold advance, w2. cbn. rewrite Hlen.
    apply accepted_spec in Ha as [Hge _]. f_equal; lia.
Qed.

Lemma parseLoop_shape parts :
  forall i acc w,
  exists new,
    fst (parseLoop double_to_string i parts acc w) = acc ++ new
    /\ indexedFrom double_to_string i new
    /\ 2 * length new <= length parts
    /\ snd (parseLoop double_to_string i parts acc w)
       = advance w (sum_list (map (fun q => length (options q)) new))
           (length new).
Proof.
  induction parts as [| |part contentBlock rest IH] using pairs_ind;
    intros i acc w.
  - exists []. cbn. rewrite app_nil_r, advance_0. repeat split; [constructor|lia].
  - exists []. cbn. rewrite app_nil_r, advance_0. repeat split; [constructor|lia].
  - destruct (parseLoop_step i part contentBlock rest acc w)
      as [->|(q & Hq & ->)].
    + destruct (IH (i + 2) acc w) as (new & H1 & H2 & H3 & H4).
      exists new. split; [done|].
      split; [eapply indexedFrom_weaken; [|done]; lia|].
      split; [cbn; lia|done].
    + destruct (IH (i + 2) (acc ++ [q]) (advance w (length (options q)) 1))
        as (new & H1 & H2 & H3 & H4).
      exists (q :: new). split; [by rewrite H1, <- app_assoc|].
      split; [by econstructor|]. split; [cbn [length]; lia|].
      rewrite H4, advance_advance. done.
Qed.

End LoopShape.

Lemma app_cons_inj_notin {A} (x : A) l1 r1 l2 r2 :
  l1 ++ x :: r1 = l2 ++ x :: r2 -> x ∉ l1 -> x ∉ l2 -> l1 = l2.
Proof.
  revert l2. induction l1 as [|a l1 IH]; intros [|b l2] H H1 H2;
    cbn in H; [done| | |].
  - injection H as -> _. exfalso. apply H2. left.
  - injection H as -> _. exfalso. apply H1. left.
  - injection H as -> H. f_equal. apply IH; [done| |].
    + intros ?. apply H1. by right.
    + intros ?. apply H2. by right.
Qed.

Lemma last_field_inj (x : N) p1 d1 p2 d2 :
  p1 ++ x :: d1 = p2 ++ x :: d2 -> x ∉ d1 -> x ∉ d2 -> d1 = d2.
Proof.
  intros H H1 H2. apply (f_equal reverse) in H.
  rewrite !reverse_app, !reverse_cons, <- !app_assoc in H. cbn in H.
  apply app_cons_inj_notin in H.
  - by apply (inj reverse).
  - by rewrite elem_of_reverse.
  - by rewrite elem_of_reverse.
Qed.

Lemma makeId_index_inj dts now r i now' r' j :
  makeId dts now r i = makeId dts now' r' j -> i = j.
Proof.
  unfold makeId. intros H.
  assert (forall k, 0x5F%N ∉ string_of_Z (Z.of_nat k)) as Hno.
  { intros k Hk. destruct (string_of_nat_spec k) as [Hd _].
    rewrite Forall_forall in Hd. apply Hd in Hk. unfold isDigit in Hk. lia. }
  apply string_of_nat_inj.
  apply (last_field_inj 0x5F%N
           (lit "q_" ++ string_of_Z now ++ lit "_" ++ dts r) _
           (lit "q_" ++ string_of_Z now' ++ lit "_" ++ dts r') _);
    [|apply Hno..].
  rewrite <- !app_assoc. exact H.
Qed.

Lemma indexedFrom_ids dts i qs :
  indexedFrom dts i qs ->
  Forall (fun q => exists j, i <= j /\ parsedAt dts j q) qs
  /\ NoDup (map id qs).
Proof.
  induction 1 as [i|i j q qs Hj Hq Hqs [IHall IHnd]].
  { split; constructor. }
  split.
  - constructor; [by exists j|].
    eapply Forall_impl; [exact IHall|]. intros q' (j' & Hj' & Hq').
    exists j'. split; [lia|done].
  - cbn [map]. constructor; [|done].
    intros (q' & Hid & Hq')%list_elem_of_fmap.
    rewrite Forall_forall in IHall.
    destruct (IHall q' Hq') as (j' & Hj' & Hpa').
    destruct Hq as (? & ? & now & r & ? & ? & ? & _ & _ & _ & Heq).
    destruct Hpa' as (? & ? & now' & r' & ? & ? & ? & _ & _ & _ & Heq').
    rewrite Heq, Heq' in Hid. cbn [id] in Hid.
    apply makeId_index_inj in Hid. lia.
Qed.

Lemma parsePair_fields part contentBlock qt opts ex :
  parsePair part contentBlock = Some (qt, opts, ex) ->
  qt <> [] /\ trim qt = qt /\ ex <> [] /\ trim ex = ex
  /\ exists optionLines, opts = buildOptions optionLines.
Proof.
  unfold parsePair. intros H.
  destruct (nonblank (split OPTIONS_DELIMITER contentBlock))
    as [|optionsPart [|container [|? ?]]]; try done.
  destruct (nonblank (split EXPLANATION_DELIMITER container))
    as [|e [|? ?]]; try done.
  destruct (_ || _ || _) eqn:E; [done|]. injection H as <- <- <-.
  apply orb_false_iff in E as [E _].
  apply orb_false_iff in E as [E1 E2].
  apply negb_false_iff in E1, E2.
  split; [by destruct (trim part)|]. split; [apply trim_correct|].
  split; [by destruct (trim e)|]. split; [apply trim_correct|].
  by eexists.
Qed.

Section ParserShape.
Variable double_to_string : Z -> list N.

Lemma parseGeneratedText_cases txt w :
  let r := fst (parseGeneratedText double_to_string txt w) in
  let w' := snd (parseGeneratedText double_to_string txt w) in
  (r = mkResult [] (Some EMPTY_INPUT) /\ w' = w
   /\ forallb isWhiteSpace txt = true)
  \/ (r = mkResult [] (Some INVALID_FORMAT) /\ w' = w
      /\ forallb isWhiteSpace txt = false)
  \/ (r = mkResult [] (Some PARSING_FAILED) /\ w' = w
      /\ forallb isWhiteSpace txt = false)
  \/ (error r = None /\ Parser.newQuestions r <> []
      /\ forallb isWhiteSpace txt = false
      /\ indexedFrom double_to_string 0 (Parser.newQuestions r)
      /\ 2 * length (Parser.newQuestions r)
         <= length (nonblank (split PAIR_DELIMITER (unescape txt)))
      /\ w' = advance w
                (sum_list (map (fun q => length (options q))
                             (Parser.newQuestions r)))
                (length (Parser.newQuestions r))).
Proof.
  cbv zeta. unfold parseGeneratedText.
  rewrite truthy_trim, negb_involutive, unescape_blank.
  destruct (forallb isWhiteSpace txt) eqn:Hblank; [by left|]. right.
  destruct (_ || _); [by left|]. right.
  unfold bind.
  destruct (parseLoop_shape double_to_string
              (nonblank (split PAIR_DELIMITER (unescape txt))) 0 [] w)
    as (new & Hfst & Hidx & Hlen & Hsnd).
  destruct (parseLoop _ _ _ _ _) as [qs w1]. cbn [fst snd] in *.
  cbn [app] in Hfst. subst qs.
  destruct new as [|q new]; cbn [length Nat.eqb].
  - left. split; [done|]. split; [|done]. cbn in Hsnd.
    by rewrite Hsnd, advance_0.
  - right. cbn [fst snd Parser.newQuestions error]. done.
Qed.

End ParserShape.

(** X3: a call of the parser ends in exactly one of two ways.  Either it
    returns no question and one of its three messages, none of them empty,
    and has then neither read the clock nor drawn a number; or it returns
    no error and at least one question. *)
Theorem parse_outcome (double_to_string : Z -> list N) (txt : list N)
  (w : World) :
  let r := fst (parseGeneratedText double_to_string txt w) in
  let w' := snd (parseGeneratedText double_to_string txt w) in
  (Parser.newQuestions r = []
   /\ (exists e, error r = Some e /\ truthy e = true
                 /\ e ∈ [EMPTY_INPUT; INVALID_FORMAT; PARSING_FAILED])
   /\ w' = w)
  \/ (error r = None /\ Parser.newQuestions r <> []).
Proof.
  cbv zeta.
  destruct (parseGeneratedText_cases double_to_string txt w)
    as [(-> & Hw & _)|[(-> & Hw & _)|[(-> & Hw & _)|(He & Hq & _)]]];
    [left..|by right]; (split; [done|]); (split; [|done]);
    eexists; (split; [reflexivity|]); (split; [reflexivity|]).
  - left.
  - right. left.
  - right. right. left.
Qed.

(** X4: the message "Input text is empty." is returned exactly for a text
    that is blank, all of it white space or nothing at all. *)
Theorem parse_empty_input (double_to_string : Z -> list N) (txt : list N)
  (w : World) :
  error (fst (parseGeneratedText double_to_string txt w)) = Some EMPTY_INPUT
  <-> forallb isWhiteSpace txt = true.
Proof.
  assert (EMPTY_INPUT <> INVALID_FORMAT) as H1 by (vm_compute; discriminate).
  assert (EMPTY_INPUT <> PARSING_FAILED) as H2 by (vm_compute; discriminate).
  destruct (parseGeneratedText_cases double_to_string txt w)
    as [(-> & _ & Hb)|[(-> & _ & Hb)|[(-> & _ & Hb)|(He & _ & Hb & _)]]];
    cbn [error] in *; rewrite Hb; split; try done; try congruence.
Qed.

(** X5: the parser returns at most one question per pair of fragments; it
    reads the clock once for each question it returns and draws as many
    numbers as the question has options (one for the id, one for each
    option but the first in the shuffle). *)
Theorem parse_count_and_draws (double_to_string : Z -> list N) (txt : list N)
  (w : World) :
  let r := fst (parseGeneratedText double_to_string txt w) in
  2 * length (Parser.newQuestions r)
  <= length (nonblank (split PAIR_DELIMITER (unescape txt)))
  /\ snd (parseGeneratedText double_to_string txt w)
     = advance w
         (sum_list (map (fun q => length (options q)) (Parser.newQuestions r)))
         (length (Parser.newQuestions r)).
Proof.
  cbv zeta.
  destruct (parseGeneratedText_cases double_to_string txt w)
    as [(-> & -> & _)|[(-> & -> & _)|[(-> & -> & _)|(_ & _ & _ & _ & H)]]];
    [cbn; rewrite advance_0; split; [lia|done]..|exact H].
Qed.

(** X6: the questions of one call of the parser have pairwise different
    ids: the loop index at the end of the id tells them apart. *)
Theorem parse_ids_distinct (double_to_string : Z -> list N) (txt : list N)
  (w : World) :
  NoDup (map id (Parser.newQuestions
                   (fst (parseGeneratedText double_to_string txt w)))).
Proof.
  destruct (parseGeneratedText_cases double_to_string txt w)
    as [(-> & _)|[(-> & _)|[(-> & _)|(_ & _ & _ & H & _)]]];
    [constructor..|].
  by apply indexedFrom_ids in H as [_ H].
Qed.

(** X7: every question the parser returns is New, unmarked and without a
    note; its question text, its explanation and the text of each of its
    options are non-empty and have no white space at either end; it has
    two, three or four options and exactly one of them is correct. *)
Theorem parsed_question_fields (double_to_string : Z -> list N)
  (txt : list N) (w : World) (q : Question) :
  q ∈ Parser.newQuestions (fst (parseGeneratedText double_to_string txt w)) ->
  hasBeenPracticed q = Some false /\ isMarked q = None /\ userNote q = None
  /\ questionText q <> [] /\ trim (questionText q) = questionText q
  /\ explanation q <> [] /\ trim (explanation q) = explanation q
  /\ (forall o, o ∈ options q -> text o <> [] /\ trim (text o) = text o)
  /\ 2 <= length (options q) <= 4
  /\ length (List.filter isCorrect (options q)) = 1.
Proof.
  intros Hq.
  destruct (parseGeneratedText_cases double_to_string txt w)
    as [(E & _)|[(E & _)|[(E & _)|(_ & _ & _ & H & _)]]];
    try (rewrite E in Hq; by apply elem_of_nil in Hq).
  apply indexedFrom_ids in H as [H _]. rewrite Forall_forall in H.
  destruct (H q Hq) as (j & _ & part & contentBlock & now & r & qt & opts & ex
                        & Hp & Hacc & Hperm & Heq).
  destruct (parsePair_fields _ _ _ _ _ Hp)
    as (Hqt & Hqt' & Hex & Hex' & lines & Hopts).
  rewrite Heq. cbn [hasBeenPracticed isMarked userNote questionText
                    explanation options].
  repeat (split; [done|]).
  destruct (buildOptions_bounds lines) as [H4 H1].
  apply accepted_spec in Hacc as Hacc'. destruct Hacc' as [H2 _].
  apply andb_true_iff in Hacc as [_ Hex1].
  apply existsb_filter_length in Hex1. subst opts.
  split; [|split].
  - intros o Ho. rewrite Hperm in Ho. split.
    + by eapply buildOptions_text.
    + by eapply buildOptions_trimmed.
  - rewrite Hperm. lia.
  - rewrite (Permutation_filter_length _ _ _ Hperm). lia.
Qed.

Lemma parsed_question_fields_witness :
  sampleParsed
    ∈ Parser.newQuestions
        (fst (parseGeneratedText (fun _ => lit "0.5") samplePair sampleWorld))
  /\ length (List.filter isCorrect (options sampleParsed)) = 1
  /\ isMarked sampleParsed = None.
Proof.
  assert (sampleParsed
          ∈ Parser.newQuestions
              (fst (parseGeneratedText (fun _ => lit "0.5") samplePair
                      sampleWorld))) as Hq.
  { replace (Parser.newQuestions _) with [sampleParsed]
      by (vm_compute; reflexivity).
    apply list_elem_of_here. }
  split; [exact Hq|].
  destruct (parsed_question_fields _ _ _ _ Hq)
    as (_ & Hm & _ & _ & _ & _ & _ & _ & _ & H1).
  split; [exact H1|exact Hm].
Defined.

(* ===================================================================== *)
(** ** More about the bank *)
(* ===================================================================== *)

Section MoreBankFacts.
Import App.

Lemma updateById_ids f questionId qs :
  (forall q, id (f q) = id q) ->
  map id (updateById f questionId qs) = map id qs.
Proof.
  intros Hf. unfold updateById. rewrite map_map. apply map_ext.
  intros q. by case_bool_decide.
Qed.

Lemma updateById_absent f questionId qs :
  questionId ∉ map id qs -> updateById f questionId qs = qs.
Proof.
  intros Hno. apply updateById_id. intros q Hq Hid. exfalso. apply Hno.
  apply list_elem_of_fmap. by exists q.
Qed.

Lemma updateById_lookup f questionId qs k q :
  qs !! k = Some q ->
  updateById f questionId qs !! k
  = Some (if bool_decide (id q = questionId) then f q else q).
Proof. intros H. unfold updateById. by rewrite list_lookup_fmap, H. Qed.

Lemma updateById_comm f g i j qs :
  (forall q, id (f q) = id q) -> (forall q, id (g q) = id q) ->
  (forall q, f (g q) = g (f q)) ->
  updateById f i (updateById g j qs) = updateById g j (updateById f i qs).
Proof.
  intros Hf Hg Hfg. unfold updateById. rewrite !map_map. apply map_ext.
  intros q.
  destruct (decide (id q = i)) as [Hi|Hi], (decide (id q = j)) as [Hj|Hj];
    repeat first
      [ rewrite (bool_decide_eq_true_2 (id q = i)) by done
      | rewrite (bool_decide_eq_false_2 (id q = i)) by done
      | rewrite (bool_decide_eq_true_2 (id q = j)) by done
      | rewrite (bool_decide_eq_false_2 (id q = j)) by done
      | rewrite (bool_decide_eq_true_2 (id (f q) = j)) by (by rewrite Hf)
      | rewrite (bool_decide_eq_false_2 (id (f q) = j)) by (by rewrite Hf)
      | rewrite (bool_decide_eq_true_2 (id (g q) = i)) by (by rewrite Hg)
      | rewrite (bool_decide_eq_false_2 (id (g q) = i)) by (by rewrite Hg) ];
    done.
Qed.

Lemma run_cons st e es : run st (e :: es) = run (step st e) es.
Proof. reflexivity. Qed.

End MoreBankFacts.

(** X11: deleting by id removes every question with that id and nothing
    else: the questions left are those with another id, in the order they
    had; the bank is unchanged when no question has the id, and a second
    deletion of the same id changes nothing. *)
Theorem delete_correct (questionId : list N) (st : App.State) :
  let st' := App.handleDeleteQuestion App.Written questionId st in
  (forall q, q ∈ App.questions st' <->
             q ∈ App.questions st /\ id q <> questionId)
  /\ App.questions st' `sublist_of` App.questions st
  /\ (questionId ∉ map id (App.questions st) ->
      App.questions st' = App.questions st)
  /\ App.handleDeleteQuestion App.Written questionId st' = st'.
Proof.
  cbv zeta. unfold App.handleDeleteQuestion. cbn [App.saveQuestions App.questions
    App.modalState].
  set (keep := fun q : Question => negb (bool_decide (id q = questionId))).
  assert (forall q, keep q = true <-> id q <> questionId) as Hkeep.
  { intros q. unfold keep. rewrite negb_true_iff.
    by rewrite bool_decide_eq_false. }
  split; [|split; [|split]].
  - intros q. rewrite !list_elem_of_In, filter_In. by rewrite Hkeep.
  - induction (App.questions st) as [|q qs IH]; [done|]. cbn.
    destruct (keep q); by constructor.
  - intros Hno. induction (App.questions st) as [|q qs IH]; [done|]. cbn.
    assert (keep q = true) as ->.
    { apply Hkeep. intros Hid. apply Hno. rewrite <- Hid. left. }
    f_equal. apply IH. intros H. apply Hno. by right.
  - f_equal.
    + induction (App.questions st) as [|q qs IH]; [done|]. cbn.
      destruct (keep q) eqn:E; [|done]. cbn. by rewrite E, IH.
    + induction (App.questions st) as [|q qs IH]; [done|]. cbn.
      destruct (keep q) eqn:E; [|done]. cbn. by rewrite E, IH.
Qed.

Lemma delete_correct_witness :
  let st := idle [sampleQuestion false 0; sampleQuestion true 1] in
  (lit "q_7" ∉ map id (App.questions st))
  /\ App.questions (App.handleDeleteQuestion App.Written (lit "q_7") st)
     = App.questions st.
Proof.
  cbv zeta.
  assert (lit "q_7"
          ∉ map id (App.questions
                      (idle [sampleQuestion false 0; sampleQuestion true 1])))
    as Hno.
  { intros H. apply list_elem_of_In in H. vm_compute in H.
    repeat destruct H as [H|H]; try discriminate H. exact H. }
  split; [exact Hno|].
  exact (proj1 (proj2 (proj2 (delete_correct _ _))) Hno).
Defined.

(** X12: saving a note, toggling the mark and marking as practiced keep
    the sequence of ids, hence the size and the order of the bank; they
    leave every question with another id as it was, and the whole bank as
    it was when no question has the id. *)
Theorem updates_keep_ids (e : App.Event) (st : App.State) :
  match e with
  | App.UpdateNote _ questionId _ | App.ToggleMark _ questionId
  | App.MarkAsPracticed _ questionId =>
      map id (App.questions (App.step st e)) = map id (App.questions st)
      /\ length (App.questions (App.step st e)) = length (App.questions st)
      /\ (forall k q, App.questions st !! k = Some q -> id q <> questionId ->
                      App.questions (App.step st e) !! k = Some q)
      /\ (questionId ∉ map id (App.questions st) ->
          App.questions (App.step st e) = App.questions st)
  | _ => True
  end.
Proof.
  assert (forall f questionId (o : App.StorageOutcome),
    (forall q, id (f q) = id q) ->
    let qs' :=
      App.questions
        (App.saveQuestions o (App.updateById f questionId (App.questions st))
           st) in
    map id qs' = map id (App.questions st)
    /\ length qs' = length (App.questions st)
    /\ (forall k q, App.questions st !! k = Some q -> id q <> questionId ->
                    qs' !! k = Some q)
    /\ (questionId ∉ map id (App.questions st) -> qs' = App.questions st))
    as H.
  { intros f questionId o Hf. cbv zeta. destruct o; cbn; [|done].
    split; [by apply updateById_ids|].
    split; [unfold App.updateById; by rewrite length_map|].
    split; [|by apply updateById_absent].
    intros k q Hk Hid. rewrite (updateById_lookup _ _ _ _ _ Hk).
    by rewrite bool_decide_eq_false_2. }
  destruct e; try done; apply H; done.
Qed.

Lemma updates_keep_ids_witness :
  let st := idle [sampleQuestion false 0; sampleQuestion true 1] in
  let st' := App.step st (App.UpdateNote App.Written (lit "q_1") (lit "hm")) in
  (App.questions st !! 0 = Some (sampleQuestion false 0)
   /\ id (sampleQuestion false 0) <> lit "q_1")
  /\ App.questions st' !! 0 = Some (sampleQuestion false 0).
Proof.
  cbv zeta.
  assert (id (sampleQuestion false 0) <> lit "q_1") as Hid
    by (vm_compute; discriminate).
  split; [by split|].
  exact (proj1 (proj2 (proj2
    (updates_keep_ids (App.UpdateNote App.Written (lit "q_1") (lit "hm"))
       (idle [sampleQuestion false 0; sampleQuestion true 1]))))
    0 (sampleQuestion false 0) eq_refl Hid).
Defined.

(** X13: after a note is saved, every question with the id carries that
    note, and of two notes saved for one id the later one stays; marking
    as practiced sets the flag on every question with the id, and doing
    it twice is doing it once. *)
Theorem note_and_practiced_written (questionId n1 n2 : list N)
  (st : App.State) :
  (forall q, q ∈ App.questions
                   (App.handleUpdateQuestionNote App.Written questionId n1 st) ->
             id q = questionId -> userNote q = Some n1)
  /\ App.handleUpdateQuestionNote App.Written questionId n2
       (App.handleUpdateQuestionNote App.Written questionId n1 st)
     = App.handleUpdateQuestionNote App.Written questionId n2 st
  /\ (forall q, q ∈ App.questions
                      (App.handleMarkAsPracticed App.Written questionId st) ->
                id q = questionId -> hasBeenPracticed q = Some true)
  /\ App.handleMarkAsPracticed App.Written questionId
       (App.handleMarkAsPracticed App.Written questionId st)
     = App.handleMarkAsPracticed App.Written questionId st.
Proof.
  assert (forall f q, (forall q, id (f q) = id q) ->
    q ∈ App.updateById f questionId (App.questions st) ->
    id q = questionId -> exists q0, q = f q0) as Hin.
  { intros f q Hf (q0 & -> & Hq0)%list_elem_of_fmap Hid.
    case_bool_decide as E; [by exists q0|]. done. }
  split; [|split; [|split]].
  - intros q Hq Hid. cbn in Hq. apply Hin in Hq as (q0 & ->); done.
  - unfold App.handleUpdateQuestionNote, App.saveQuestions.
    cbn [App.questions App.modalState]. by rewrite updateById_twice.
  - intros q Hq Hid. cbn in Hq. apply Hin in Hq as (q0 & ->); done.
  - unfold App.handleMarkAsPracticed, App.saveQuestions.
    cbn [App.questions App.modalState]. by rewrite updateById_twice.
Qed.

Lemma note_and_practiced_written_witness :
  let st := idle [sampleQuestion false 0; sampleQuestion true 1] in
  let q := App.setUserNote (lit "hm") (sampleQuestion true 1) in
  (q ∈ App.questions
         (App.handleUpdateQuestionNote App.Written (lit "q_1") (lit "hm") st)
   /\ id q = lit "q_1")
  /\ userNote q = Some (lit "hm").
Proof.
  cbv zeta.
  assert (App.setUserNote (lit "hm") (sampleQuestion true 1)
          ∈ App.questions
              (App.handleUpdateQuestionNote App.Written (lit "q_1") (lit "hm")
                 (idle [sampleQuestion false 0; sampleQuestion true 1]))) as Hq.
  { replace (App.questions _)
      with [sampleQuestion false 0;
            App.setUserNote (lit "hm") (sampleQuestion true 1)]
      by (vm_compute; reflexivity).
    right. left. }
  assert (id (App.setUserNote (lit "hm") (sampleQuestion true 1)) = lit "q_1")
    as Hid by reflexivity.
  split; [by split|].
  exact (proj1 (note_and_practiced_written (lit "q_1") (lit "hm") (lit "hm") _)
           _ Hq Hid).
Defined.

(** X14: a note, a mark toggle and a practiced flag are written to
    different fields, so these three updates can be made in either order,
    on the same or on different ids, with the same bank as the result. *)
Theorem updates_commute (i j : list N) (n : list N) (st : App.State) :
  App.handleToggleMark App.Written i
    (App.handleUpdateQuestionNote App.Written j n st)
  = App.handleUpdateQuestionNote App.Written j n
      (App.handleToggleMark App.Written i st)
  /\ App.handleToggleMark App.Written i
       (App.handleMarkAsPracticed App.Written j st)
     = App.handleMarkAsPracticed App.Written j
         (App.handleToggleMark App.Written i st)
  /\ App.handleMarkAsPracticed App.Written i
       (App.handleUpdateQuestionNote App.Written j n st)
     = App.handleUpdateQuestionNote App.Written j n
         (App.handleMarkAsPracticed App.Written i st).
Proof.
  unfold App.handleToggleMark, App.handleUpdateQuestionNote,
    App.handleMarkAsPracticed, App.saveQuestions.
  cbn [App.questions App.modalState].
  split; [|split]; by rewrite updateById_comm.
Qed.

(** X15: every event leaves the stored questions what they were in content:
    a question of the bank after the event either came with the event (the
    batch saved, or the pending batch confirmed) or was in the bank before
    with the same id, question text, options and explanation, and if it
    was practiced before it still is. *)
Theorem step_keeps_content (st : App.State) (e : App.Event) (q' : Question) :
  q' ∈ App.questions (App.step st e) ->
  q' ∈ incoming st e
  \/ exists q, q ∈ App.questions st /\ sameContent q q'
               /\ (flag (hasBeenPracticed q) = true ->
                   flag (hasBeenPracticed q') = true).
Proof.
  assert (forall q, q ∈ App.questions st ->
    exists q0, q0 ∈ App.questions st /\ sameContent q0 q
               /\ (flag (hasBeenPracticed q0) = true ->
                   flag (hasBeenPracticed q) = true)) as Hsame.
  { intros q Hq. exists q. by repeat split. }
  assert (forall f questionId (o : App.StorageOutcome),
    (forall q, sameContent q (f q)
               /\ (flag (hasBeenPracticed q) = true ->
                   flag (hasBeenPracticed (f q)) = true)) ->
    q' ∈ App.questions
           (App.saveQuestions o (App.updateById f questionId (App.questions st))
              st) ->
    exists q, q ∈ App.questions st /\ sameContent q q'
              /\ (flag (hasBeenPracticed q) = true ->
                  flag (hasBeenPracticed q') = true)) as Hupd.
  { intros f questionId [|] Hf Hq; cbn in Hq; [|by apply Hsame].
    apply list_elem_of_fmap in Hq as (q & -> & Hq).
    case_bool_decide; [|by apply Hsame].
    exists q. split; [done|]. apply Hf. }
  intros Hq. destruct e as [o batch|o| |o i|o i n|o i|o i]; cbn [incoming].
  - unfold App.step, App.handleSaveNewQuestions in Hq.
    destruct (_ <? _); [right; by apply Hsame|].
    destruct o; cbn in Hq; [|right; by apply Hsame].
    apply elem_of_app in Hq as [Hq|Hq]; [right; by apply Hsame|by left].
  - destruct o; cbn in Hq; [|right; by apply Hsame].
    apply elem_of_app in Hq as [Hq|Hq]; [|by left].
    right. apply Hsame. by eapply subseteq_drop.
  - right. by apply Hsame.
  - destruct o; cbn in Hq; [|right; by apply Hsame].
    right. apply Hsame. apply list_elem_of_In, filter_In in Hq as [Hq _].
    by apply list_elem_of_In.
  - right. eapply (Hupd (App.setUserNote n)); [|exact Hq].
    intros q. by repeat split.
  - right. eapply (Hupd App.toggleMarked); [|exact Hq].
    intros q. by repeat split.
  - right. eapply (Hupd App.setPracticed); [|exact Hq].
    intros q. by repeat split.
Qed.

Lemma step_keeps_content_witness :
  let st := idle [sampleQuestion true 1] in
  let e := App.ToggleMark App.Written (lit "q_1") in
  App.toggleMarked (sampleQuestion true 1) ∈ App.questions (App.step st e)
  /\ (App.toggleMarked (sampleQuestion true 1) ∈ incoming st e
      \/ exists q, q ∈ App.questions st
                   /\ sameContent q (App.toggleMarked (sampleQuestion true 1))
                   /\ (flag (hasBeenPracticed q) = true ->
                       flag (hasBeenPracticed
                               (App.toggleMarked (sampleQuestion true 1)))
                       = true)).
Proof.
  cbv zeta.
  assert (App.toggleMarked (sampleQuestion true 1)
          ∈ App.questions
              (App.step (idle [sampleQuestion true 1])
                 (App.ToggleMark App.Written (lit "q_1")))) as Hq.
  { replace (App.questions _) with [App.toggleMarked (sampleQuestion true 1)]
      by (vm_compute; reflexivity).
    left. }
  split; [exact Hq|]. exact (step_keeps_content _ _ _ Hq).
Defined.

(** X16: what is in storage is what is in memory: if the two agree before
    a run of events, with writes that succeed or fail in any pattern, they
    agree after it. *)
Theorem stored_follows_memory (es : list App.Event) (st : App.State) :
  App.stored st = App.questions st ->
  App.stored (App.run st es) = App.questions (App.run st es).
Proof.
  revert st. induction es as [|e es IH]; intros st Hst; [done|].
  rewrite run_cons. apply IH.
  destruct e as [o batch|o| |o i|o i n|o i|o i]; cbn [App.step].
  - unfold App.handleSaveNewQuestions. destruct (_ <? _); [done|].
    by destruct o.
  - by destruct o.
  - done.
  - by destruct o.
  - by destruct o.
  - by destruct o.
  - by destruct o.
Qed.

Lemma stored_follows_memory_witness :
  let st := idle [sampleQuestion false 0] in
  let es :=
    [App.ToggleMark App.Written (lit "q_0");
     App.UpdateNote App.Threw (lit "q_0") (lit "hm");
     App.Delete App.Written (lit "q_0")] in
  App.stored st = App.questions st
  /\ App.stored (App.run st es) = App.questions (App.run st es).
Proof.
  cbv zeta. split; [reflexivity|].
  exact (stored_follows_memory _ (idle [sampleQuestion false 0]) eq_refl).
Defined.

(** X17: the capacity holds for small batches: if the bank holds at most
    5000 questions and no batch, pending or submitted later, has more than
    50 questions, then after any run of events the bank still holds at
    most 5000 questions. *)
Theorem capacity_with_small_batches (es : list App.Event) (st : App.State) :
  withinCapacity st -> Forall smallBatch es ->
  withinCapacity (App.run st es).
Proof.
  revert st. induction es as [|e es IH]; intros st Hst Hes; [done|].
  rewrite run_cons. apply Forall_cons in Hes as [He Hes].
  apply IH; [|done]. clear IH Hes.
  destruct Hst as [Hlen Hpend]. unfold withinCapacity.
  assert (forall f i (o : App.StorageOutcome),
    length (App.questions
              (App.saveQuestions o (App.updateById f i (App.questions st)) st))
    = length (App.questions st)) as Hupd.
  { intros f i [|]; cbn; [|done]. unfold App.updateById.
    by rewrite length_map. }
  destruct e as [o batch|o| |o i|o i n|o i|o i]; cbn [App.step smallBatch] in *.
  - unfold App.handleSaveNewQuestions.
    destruct (_ <? _) eqn:E; cbn; [done|].
    apply Nat.ltb_ge in E. destruct o; cbn; [|done].
    by rewrite length_app.
  - destruct o; cbn; [|unfold App.DELETION_CHUNK_SIZE; lia].
    rewrite length_app, length_drop.
    unfold App.DELETION_CHUNK_SIZE, App.MAX_QUESTIONS in *.
    split; [|lia].
    destruct (decide (50 <= length (App.questions st))); [lia|].
    assert (length (App.questions st) - 50 = 0) as -> by lia.
    apply (Nat.le_trans _ 50); [exact Hpend|].
    apply Nat.leb_le. reflexivity.
  - cbn. unfold App.DELETION_CHUNK_SIZE. split; [done|lia].
  - destruct o; cbn; [|done]. split; [|done].
    etrans; [apply List.filter_length_le|done].
  - unfold App.handleUpdateQuestionNote. rewrite Hupd.
    by destruct o.
  - unfold App.handleToggleMark. rewrite Hupd. by destruct o.
  - unfold App.handleMarkAsPracticed. rewrite Hupd. by destruct o.
Qed.

Lemma capacity_with_small_batches_witness :
  let st := idle (sampleBank true 0 10) in
  let es :=
    [App.SaveNew App.Written (sampleBank false 10 3); App.ModalConfirm App.Written] in
  (withinCapacity st /\ Forall smallBatch es)
  /\ withinCapacity (App.run st es).
Proof.
  cbv zeta.
  assert (withinCapacity (idle (sampleBank true 0 10))) as Hst.
  { split; apply Nat.leb_le; reflexivity. }
  assert (Forall smallBatch
            [App.SaveNew App.Written (sampleBank false 10 3);
             App.ModalConfirm App.Written]) as Hes.
  { constructor; [apply Nat.leb_le; reflexivity|]. by constructor. }
  split; [by split|]. exact (capacity_with_small_batches _ _ Hst Hes).
Defined.

(** X18: a write to storage that fails loses the change in memory as well:
    while every write fails, no run of events changes the bank, in memory
    or in storage; and a confirm whose write fails does what a cancel
    does, the pending batch is gone. *)
Theorem failed_writes_change_nothing (es : list App.Event) (st : App.State) :
  App.handleModalConfirm App.Threw st = App.handleModalCancel st
  /\ (Forall writeFails es ->
      App.questions (App.run st es) = App.questions st
      /\ App.stored (App.run st es) = App.stored st).
Proof.
  split; [reflexivity|].
  revert st. induction es as [|e es IH]; intros st Hes; [done|].
  rewrite run_cons. apply Forall_cons in Hes as [He Hes].
  destruct (IH (App.step st e) Hes) as [-> ->].
  destruct e as [o batch|o| |o i|o i n|o i|o i]; cbn in He; subst;
    cbn; try done.
  unfold App.handleSaveNewQuestions. by destruct (_ <? _).
Qed.

Lemma failed_writes_change_nothing_witness :
  let st := idle [sampleQuestion false 0] in
  let es :=
    [App.ToggleMark App.Threw (lit "q_0"); App.Delete App.Threw (lit "q_0")] in
  Forall writeFails es
  /\ App.questions (App.run st es) = App.questions st.
Proof.
  cbv zeta.
  assert (Forall writeFails
            [App.ToggleMark App.Threw (lit "q_0");
             App.Delete App.Threw (lit "q_0")]) as Hes
    by (repeat constructor).
  split; [exact Hes|].
  exact (proj1 (proj2 (failed_writes_change_nothing _
                         (idle [sampleQuestion false 0])) Hes)).
Defined.

(* ===================================================================== *)
(** ** More about the practice session *)
(* ===================================================================== *)

Section MoreSessionFacts.
Import Session.

Lemma existsb_isNew_false qs :
  existsb isNew qs = false -> List.filter isPracticed qs = qs.
Proof.
  induction qs as [|q qs IH]; [done|]. cbn.
  intros [Hq Hqs]%orb_false_iff. unfold isNew in Hq.
  apply negb_false_iff in Hq. unfold isPracticed. rewrite Hq.
  f_equal. by apply IH.
Qed.

Lemma existsb_isNew_true qs :
  existsb isNew qs = true -> List.filter isNew qs <> [].
Proof.
  intros H%existsb_filter_length Hnil. rewrite Hnil in H. cbn in H. lia.
Qed.

Lemma filter_updateById_length (g : Question -> bool) f questionId qs :
  (forall q, g (f q) = g q) ->
  length (List.filter g (App.updateById f questionId qs))
  = length (List.filter g qs).
Proof.
  intros Hg. induction qs as [|q qs IH]; [done|].
  cbn [App.updateById map List.filter].
  fold (App.updateById f questionId qs).
  assert (g (if bool_decide (id q = questionId) then f q else q) = g q) as ->
    by (case_bool_decide; [apply Hg|done]).
  destruct (g q); cbn [length]; by rewrite IH.
Qed.

Lemma updateDeck_lookup qs deck p dq :
  Forall (fun d => id d ∈ map id qs) deck ->
  deck !! p = Some dq ->
  exists q,
    updateDeck qs deck !! p = Some q
    /\ List.find (fun q' => bool_decide (id q' = id dq)) qs = Some q.
Proof.
  unfold updateDeck. intros Hall. revert p.
  induction Hall as [|d deck Hd Hall IH]; intros p Hp; [done|].
  cbn [omap list_omap].
  destruct (List.find (fun q' => bool_decide (id q' = id d)) qs) as [q|] eqn:E.
  - destruct p as [|p]; cbn in Hp.
    + simplify_eq. by exists q.
    + by apply IH.
  - by apply find_by_id_None in E.
Qed.

End MoreSessionFacts.

(** X19: after a rebuild of the decks the view shows a question exactly
    when the bank is not empty, and the question shown comes from the bank
    and is a New one whenever the bank has a New question, a Review one if
    not; a bank that has become empty leaves both decks empty. *)
Theorem rebuild_shows_question (qs : list Question) (s : Session.State)
  (w : World) :
  ~ counts_unchanged qs s ->
  let s' := fst (Session.onQuestions qs s w) in
  (is_Some (Session.currentQuestion s') <-> qs <> [])
  /\ (forall cq, Session.currentQuestion s' = Some cq ->
                 cq ∈ qs /\ Session.isNew cq = existsb Session.isNew qs)
  /\ (qs = [] -> Session.newDeck s' = [] /\ Session.practicedDeck s' = []).
Proof.
  intros Hc. cbv zeta.
  destruct (onQuestions_rebuild qs s w Hc)
    as (Hnd & Hpd & Hpos & Hphase & _).
  set (s' := fst (Session.onQuestions qs s w)) in *.
  unfold Session.currentQuestion, Session.activeDeck.
  rewrite Hpos, Hphase.
  assert (forall l : list Question, is_Some (l !! 0) <-> l <> []) as Hhead.
  { intros [|x l]; cbn; split; done. }
  assert (forall f cq (deck : list Question),
             deck ≡ₚ List.filter f qs -> deck !! 0 = Some cq ->
             cq ∈ qs /\ f cq = true) as Hfrom.
  { intros f cq deck Hperm Hcq.
    assert (cq ∈ List.filter f qs) as Hin.
    { rewrite <- Hperm. by eapply list_elem_of_lookup_2. }
    apply list_elem_of_In, filter_In in Hin as [Hin Hf].
    by apply list_elem_of_In in Hin. }
  destruct (existsb Session.isNew qs) eqn:E.
  - split; [|split].
    + rewrite Hhead. split.
      * intros _ ->. done.
      * intros _ Hnil. rewrite Hnil in Hnd. symmetry in Hnd.
        apply Permutation_nil_r in Hnd.
        by apply existsb_isNew_true in E.
    + intros cq Hcq. by apply (Hfrom Session.isNew cq _ Hnd).
    + by intros ->.
  - rewrite (existsb_isNew_false qs E) in Hpd. split; [|split].
    + rewrite Hhead. split.
      * intros Hne ->. apply Permutation_nil_r in Hpd. done.
      * intros Hne Hnil. rewrite Hnil in Hpd. symmetry in Hpd.
        by apply Permutation_nil_r in Hpd.
    + intros cq Hcq. split.
      * rewrite <- Hpd. by eapply list_elem_of_lookup_2.
      * assert (cq ∈ qs) as Hin
          by (rewrite <- Hpd; by eapply list_elem_of_lookup_2).
        apply list_elem_of_In in Hin.
        destruct (Session.isNew cq) eqn:Hn; [|done].
        assert (existsb Session.isNew qs = true)
          by (apply existsb_exists; eauto).
        congruence.
    + intros ->. cbn in Hnd, Hpd.
      by apply Permutation_nil_r in Hnd, Hpd.
Qed.

Lemma rebuild_shows_question_witness :
  let qs := [sampleQuestion true 1] in
  ~ counts_unchanged qs Session.initial
  /\ is_Some (Session.currentQuestion
                (fst (Session.onQuestions qs Session.initial sampleWorld))).
Proof.
  cbv zeta.
  assert (~ counts_unchanged [sampleQuestion true 1] Session.initial) as Hc.
  { intros [_ H]. cbn in H. discriminate H. }
  split; [exact Hc|].
  apply (proj1 (rebuild_shows_question _ _ sampleWorld Hc)). discriminate.
Defined.

(** X20: with a question on display, a click on Next leaves a question on
    display; it moves (one position on in the same phase, or from the last
    New question to the first Review question) exactly when the Next
    button is enabled, and it never goes from Review back to New. *)
Theorem handleNext_moves (s : Session.State) (cq : Question) :
  Session.currentQuestion s = Some cq ->
  let s' := snd (Session.handleNext s) in
  is_Some (Session.currentQuestion s')
  /\ (Session.disableNextButton s = false ->
      (Session.isPracticingNew s' = Session.isPracticingNew s
       /\ Session.deckPosition s' = Session.deckPosition s + 1)
      \/ (Session.isPracticingNew s = true
          /\ Session.isPracticingNew s' = false
          /\ Session.deckPosition s' = 0))
  /\ (Session.disableNextButton s = true ->
      Session.isPracticingNew s' = Session.isPracticingNew s
      /\ Session.deckPosition s' = Session.deckPosition s)
  /\ (Session.isPracticingNew s = false -> Session.isPracticingNew s' = false).
Proof.
  intros Hcur. cbv zeta. unfold Session.handleNext. rewrite Hcur.
  unfold Session.currentQuestion, Session.activeDeck,
    Session.disableNextButton in *.
  apply lookup_lt_Some in Hcur.
  destruct s as [nd pd pos phase sel ex an focus nt el tm run].
  cbn [Session.newDeck Session.practicedDeck Session.deckPosition
       Session.isPracticingNew Session.focusNewOnly] in *.
  destruct phase; cbn [andb negb orb] in *.
  - destruct (length nd <=? pos + 1) eqn:Elast; cbn [andb].
    + apply Nat.leb_le in Elast.
      assert ((pos + 1 <? length nd) = false) as Hno
        by (apply Nat.ltb_ge; lia).
      assert ((length nd - 1 <=? pos) = true) as Hl
        by (apply Nat.leb_le; lia).
      rewrite Hl. cbn [andb].
      destruct focus; cbn [negb andb orb].
      * rewrite Hno. cbn. repeat split; try done.
        apply lookup_lt_is_Some. lia.
      * destruct (0 <? length pd) eqn:Epd; cbn [andb].
        -- apply Nat.ltb_lt in Epd.
           assert ((length pd =? 0) = false) as -> by (apply Nat.eqb_neq; lia).
           cbn. repeat split; try done.
           ++ apply lookup_lt_is_Some. lia.
           ++ by right.
        -- apply Nat.ltb_ge in Epd.
           assert ((length pd =? 0) = true) as -> by (apply Nat.eqb_eq; lia).
           rewrite Hno. cbn. repeat split; try done.
           apply lookup_lt_is_Some. lia.
    + apply Nat.leb_gt in Elast.
      assert ((pos + 1 <? length nd) = true) as Hyes
        by (apply Nat.ltb_lt; lia).
      assert ((length nd - 1 <=? pos) = false) as Hl
        by (apply Nat.leb_gt; lia).
      rewrite Hyes, Hl. cbn. repeat split; try done.
      * apply lookup_lt_is_Some. lia.
      * by left.
  - rewrite orb_false_r.
    destruct (pos + 1 <? length pd) eqn:E.
    + apply Nat.ltb_lt in E.
      assert ((length pd - 1 <=? pos) = false) as Hl
        by (apply Nat.leb_gt; lia).
      rewrite Hl. cbn. repeat split; try done.
      * apply lookup_lt_is_Some. lia.
      * by left.
    + apply Nat.ltb_ge in E.
      assert ((length pd - 1 <=? pos) = true) as Hl
        by (apply Nat.leb_le; lia).
      rewrite Hl. cbn. repeat split; try done.
      apply lookup_lt_is_Some. lia.
Qed.

Lemma handleNext_moves_witness :
  let s :=
    Session.mkState [sampleQuestion false 0] [sampleQuestion true 1] 0 true
      (Some (lit "A")) false false false [] ∅ 12 false in
  (Session.currentQuestion s = Some (sampleQuestion false 0)
   /\ Session.disableNextButton s = false)
  /\ is_Some (Session.currentQuestion (snd (Session.handleNext s)))
  /\ Session.currentQuestion (snd (Session.handleNext s))
     = Some (sampleQuestion true 1).
Proof.
  cbv zeta.
  assert (Session.currentQuestion
            (Session.mkState [sampleQuestion false 0] [sampleQuestion true 1]
               0 true (Some (lit "A")) false false false [] ∅ 12 false)
          = Some (sampleQuestion false 0)) as Hcur by reflexivity.
  split; [by split|].
  split; [exact (proj1 (handleNext_moves _ _ Hcur))|reflexivity].
Defined.

(** X21: striking an option out and striking it out again gives the state
    back; the first answer stands, a second click on an option changes
    nothing, and once an answer is selected the strike-out button changes
    nothing either. *)
Theorem scratch_clicks (t t' : list N) (s : Session.State) :
  Session.handleEliminateClick t (Session.handleEliminateClick t s) = s
  /\ Session.handleOptionClick t' (Session.handleOptionClick t s)
     = Session.handleOptionClick t s
  /\ Session.handleEliminateClick t' (Session.handleOptionClick t s)
     = Session.handleOptionClick t s
  /\ (Session.selectedAnswer s = None ->
      Session.selectedAnswer (Session.handleOptionClick t s) = Some t
      /\ Session.isTimerRunning (Session.handleOptionClick t s) = false).
Proof.
  destruct s as [nd pd pos phase [a|] ex an focus nt el tm run];
    unfold Session.handleEliminateClick, Session.handleOptionClick; cbn.
  { done. }
  split; [|done].
  destruct (decide (t ∈ el)) as [Hin|Hin].
  - rewrite (bool_decide_eq_true_2 (t ∈ el)) by done.
    rewrite (bool_decide_eq_false_2 (t ∈ el ∖ {[t]}))
      by (intros [_ H]%elem_of_difference; apply H; by apply elem_of_singleton).
    f_equal. apply leibniz_equiv. intros x.
    rewrite elem_of_union, elem_of_difference, elem_of_singleton.
    destruct (decide (x = t)) as [->|]; intuition congruence.
  - rewrite (bool_decide_eq_false_2 (t ∈ el)) by done.
    rewrite (bool_decide_eq_true_2 (t ∈ {[t]} ∪ el))
      by (by apply elem_of_union_l, elem_of_singleton).
    f_equal. apply leibniz_equiv. intros x.
    rewrite elem_of_difference, elem_of_union, elem_of_singleton.
    destruct (decide (x = t)) as [->|]; intuition congruence.
Qed.

Lemma scratch_clicks_witness :
  let s :=
    Session.mkState [sampleQuestion false 0] [] 0 true None false false false
      [] ∅ 12 true in
  Session.selectedAnswer s = None
  /\ Session.selectedAnswer (Session.handleOptionClick (lit "A") s)
     = Some (lit "A").
Proof.
  cbv zeta. split; [reflexivity|].
  exact (proj1 (proj2 (proj2 (proj2
    (scratch_clicks (lit "A") (lit "B")
       (Session.mkState [sampleQuestion false 0] [] 0 true None false false
          false [] ∅ 12 true)))) eq_refl)).
Defined.

(** X22: a reshuffle keeps the Review questions, all of them and no other,
    in some order, and leaves the New deck alone; it goes back to the
    first position, clears the answer and the struck-out options and
    restarts the timer, and a non-empty Review deck on display has a first
    question after it. *)
Theorem handleReshuffle_correct (s : Session.State) (w : World) :
  let s' := fst (Session.handleReshuffle s w) in
  Session.practicedDeck s' ≡ₚ Session.practicedDeck s
  /\ Session.newDeck s' = Session.newDeck s
  /\ Session.isPracticingNew s' = Session.isPracticingNew s
  /\ Session.deckPosition s' = 0
  /\ Session.selectedAnswer s' = None
  /\ Session.eliminatedOptions s' = ∅
  /\ Session.time s' = 0 /\ Session.isTimerRunning s' = true
  /\ snd (Session.handleReshuffle s w)
     = advance w (length (Session.practicedDeck s) - 1) 0
  /\ (Session.isPracticingNew s = false -> Session.practicedDeck s <> [] ->
      is_Some (Session.currentQuestion s')).
Proof.
  cbv zeta. unfold Session.handleReshuffle, bind.
  pose proof (shuffleArray_Permutation (Session.practicedDeck s) w) as Hperm.
  pose proof (shuffleArray_length (Session.practicedDeck s) w) as Hlen.
  pose proof (shuffleArray_world (Session.practicedDeck s) w) as Hw.
  destruct (shuffleArray (Session.practicedDeck s) w) as [pd w'].
  cbn [fst snd] in *. cbn.
  repeat (split; [done|]).
  intros Hphase Hne. unfold Session.currentQuestion, Session.activeDeck.
  cbn. rewrite Hphase. apply lookup_lt_is_Some. rewrite Hlen.
  destruct (Session.practicedDeck s); [done|cbn; lia].
Qed.

Lemma handleReshuffle_correct_witness :
  let s :=
    Session.mkState [] [sampleQuestion true 0; sampleQuestion true 1] 1 false
      (Some (lit "A")) false false false [] ∅ 12 false in
  (Session.isPracticingNew s = false /\ Session.practicedDeck s <> [])
  /\ is_Some (Session.currentQuestion
                (fst (Session.handleReshuffle s sampleWorld))).
Proof.
  cbv zeta. split; [by split|].
  apply (handleReshuffle_correct
           (Session.mkState [] [sampleQuestion true 0; sampleQuestion true 1]
              1 false (Some (lit "A")) false false false [] ∅ 12 false)
           sampleWorld); [reflexivity|discriminate].
Defined.

(** X23: in the New phase every click on Next whose write succeeds ends in a
    rebuild: the current question is marked practiced in the bank, the
    count of New questions drops, so the effect shuffles both decks
    afresh and shows position 0 again, with a New deck shorter than
    before, whatever position [handleNext] had set. *)
Theorem next_in_new_phase_rebuilds (app : App.State) (s : Session.State)
  (cq q : Question) (w : World) :
  counts_unchanged (App.questions app) s ->
  Session.isPracticingNew s = true ->
  Session.currentQuestion s = Some cq ->
  q ∈ App.questions app -> id q = id cq -> Session.isNew q = true ->
  let after := fst (clickNextAndRender App.Written (app, s) w) in
  App.questions (fst after)
  = App.updateById App.setPracticed (id cq) (App.questions app)
  /\ rebuilt (App.questions (fst after)) (snd (Session.handleNext s))
       (snd after)
  /\ Session.deckPosition (snd after) = 0
  /\ length (Session.newDeck (snd after)) < length (Session.newDeck s).
Proof.
  intros Hsame Hphase Hcur Hq Hid Hnew. cbv zeta.
  unfold clickNextAndRender, Session.handleNext. rewrite Hcur, Hphase.
  set (branch := if _ && _ && _ then _ else _).
  destruct branch as [phase position]. unfold bind.
  set (s1 := Session.mkState _ _ _ _ _ _ _ _ _ _ _ _).
  set (app' := App.handleMarkAsPracticed App.Written (id cq) app).
  assert (counts_unchanged (App.questions app) s1) as Hsame1 by exact Hsame.
  assert (major_change app (App.questions app')) as Hmajor
    by (by eapply moved_phase).
  pose proof (major_change_counts app s1 _ Hsame1 Hmajor) as Hdiff.
  pose proof (onQuestions_rebuild (App.questions app') s1 w Hdiff) as Hre.
  destruct (Session.onQuestions (App.questions app') s1 w) as [s2 w'].
  cbn [fst snd] in *.
  split; [reflexivity|]. split; [exact Hre|].
  destruct Hre as (Hnd & _ & Hpos & _). split; [exact Hpos|].
  rewrite Hnd. destruct Hsame as [<- _].
  apply setPracticed_fewer_new. by exists q.
Qed.

Lemma next_in_new_phase_rebuilds_witness :
  let app := idle [sampleQuestion false 0; sampleQuestion false 1] in
  let s :=
    Session.mkState [sampleQuestion false 1; sampleQuestion false 0] [] 0 true
      (Some (lit "A")) false false false [] ∅ 12 false in
  (counts_unchanged (App.questions app) s
   /\ Session.isPracticingNew s = true
   /\ Session.currentQuestion s = Some (sampleQuestion false 1)
   /\ sampleQuestion false 1 ∈ App.questions app
   /\ Session.isNew (sampleQuestion false 1) = true)
  /\ Session.deckPosition
       (snd (fst (clickNextAndRender App.Written (app, s) sampleWorld))) = 0.
Proof.
  cbv zeta.
  assert (counts_unchanged
            (App.questions
               (idle [sampleQuestion false 0; sampleQuestion false 1]))
            (Session.mkState [sampleQuestion false 1; sampleQuestion false 0]
               [] 0 true (Some (lit "A")) false false false [] ∅ 12 false))
    as Hsame by (split; reflexivity).
  assert (sampleQuestion false 1
          ∈ App.questions
              (idle [sampleQuestion false 0; sampleQuestion false 1])) as Hq
    by (right; left).
  split; [repeat split; done|].
  exact (proj1 (proj2 (proj2
    (next_in_new_phase_rebuilds _ _ (sampleQuestion false 1)
       (sampleQuestion false 1) sampleWorld Hsame eq_refl eq_refl Hq eq_refl
       eq_refl)))).
Defined.

(** X24: a saved note is the note shown: with decks that match the bank
    (the sizes the bank asks for, every deck entry's id in the bank), a
    click on Save Note writes the draft to every question of the current
    question's id, the view stays on its position with its scratch state,
    the question on display is the bank's question of that id and carries
    the note, and the draft is still what was typed. *)
Theorem save_note_round_trip (app : App.State) (s : Session.State)
  (cq : Question) (w : World) :
  counts_unchanged (App.questions app) s ->
  Forall (fun d => id d ∈ map id (App.questions app)) (Session.activeDeck s) ->
  Session.currentQuestion s = Some cq ->
  let after := fst (saveNoteAndRender (app, s) w) in
  App.questions (fst after)
  = App.updateById (App.setUserNote (Session.note s)) (id cq)
      (App.questions app)
  /\ (exists q', Session.currentQuestion (snd after) = Some q'
                 /\ q' ∈ App.questions (fst after)
                 /\ id q' = id cq
                 /\ userNote q' = Some (Session.note s))
  /\ Session.note (snd after) = Session.note s
  /\ Session.deckPosition (snd after) = Session.deckPosition s
  /\ Session.isPracticingNew (snd after) = Session.isPracticingNew s
  /\ Session.selectedAnswer (snd after) = Session.selectedAnswer s
  /\ Session.eliminatedOptions (snd after) = Session.eliminatedOptions s
  /\ Session.time (snd after) = Session.time s
  /\ snd (saveNoteAndRender (app, s) w) = w.
Proof.
  intros Hsame Hids Hcur. cbv zeta.
  unfold saveNoteAndRender, Session.handleSaveNote. rewrite Hcur.
  cbn [fmap option_fmap option_map]. unfold bind.
  set (n := Session.note s).
  set (qs' := App.questions (App.handleUpdateQuestionNote App.Written (id cq) n app)).
  assert (qs' = App.updateById (App.setUserNote n) (id cq) (App.questions app))
    as Hqs' by reflexivity.
  assert (counts_unchanged qs' s) as Hsame'.
  { destruct Hsame as [Hn Hp]. rewrite Hqs'. split.
    - by rewrite filter_updateById_length.
    - by rewrite filter_updateById_length. }
  destruct (onQuestions_refresh qs' s w Hsame') as (Hw & Hre).
  destruct (Session.onQuestions qs' s w) as [s1 w1]. cbn [fst snd] in *.
  destruct Hre as (Hnd & Hpd & _ & _ & _ & Hpos & Hphase & Hsel & _ & Hel
                   & Htime & _).
  assert (Forall (fun d => id d ∈ map id qs') (Session.activeDeck s)) as Hids'.
  { rewrite Hqs', updateById_ids; done. }
  assert (Session.activeDeck s1
          = Session.updateDeck qs' (Session.activeDeck s)) as Hactive.
  { unfold Session.activeDeck. rewrite Hphase.
    by destruct (Session.isPracticingNew s). }
  destruct (updateDeck_lookup qs' _ _ _ Hids' Hcur) as (q' & Hlook & Hfind).
  assert (Session.currentQuestion s1 = Some q') as Hcur1.
  { unfold Session.currentQuestion. by rewrite Hactive, Hpos. }
  apply find_by_id_Some in Hfind as [Hq' Hid'].
  assert (userNote q' = Some n) as Hnote.
  { rewrite Hqs' in Hq'.
    apply list_elem_of_fmap in Hq' as (q0 & -> & _).
    case_bool_decide as E; [done|]. cbn in Hid'. done. }
  split; [done|]. split.
  { exists q'. unfold Session.currentQuestion, Session.syncNote in *.
    unfold Session.activeDeck in *. cbn. done. }
  unfold Session.syncNote. rewrite Hcur1, Hnote. cbn.
  split; [by destruct n|]. done.
Qed.

Lemma save_note_round_trip_witness :
  let app := idle [sampleQuestion false 0; sampleQuestion true 1] in
  let s :=
    Session.mkState [sampleQuestion false 0] [sampleQuestion true 1] 0 true
      (Some (lit "A")) false true false (lit "read twice") ∅ 12 false in
  (counts_unchanged (App.questions app) s
   /\ Forall (fun d => id d ∈ map id (App.questions app)) (Session.activeDeck s)
   /\ Session.currentQuestion s = Some (sampleQuestion false 0))
  /\ Session.currentQuestion (snd (fst (saveNoteAndRender (app, s) sampleWorld)))
     = Some (App.setUserNote (lit "read twice") (sampleQuestion false 0))
  /\ Session.note (snd (fst (saveNoteAndRender (app, s) sampleWorld)))
     = lit "read twice".
Proof.
  cbv zeta.
  assert (counts_unchanged
            (App.questions
               (idle [sampleQuestion false 0; sampleQuestion true 1]))
            (Session.mkState [sampleQuestion false 0] [sampleQuestion true 1]
               0 true (Some (lit "A")) false true false (lit "read twice") ∅ 12
               false)) as Hsame by (split; reflexivity).
  assert (Forall (fun d => id d ∈ map id
                     (App.questions
                        (idle [sampleQuestion false 0; sampleQuestion true 1])))
            (Session.activeDeck
               (Session.mkState [sampleQuestion false 0]
                  [sampleQuestion true 1] 0 true (Some (lit "A")) false true
                  false (lit "read twice") ∅ 12 false))) as Hids.
  { constructor; [left|constructor]. }
  split; [by repeat split|]. split; [vm_compute; reflexivity|].
  exact (proj1 (proj2 (proj2
    (save_note_round_trip _ _ (sampleQuestion false 0) sampleWorld Hsame Hids
       eq_refl)))).
Defined.

Lemma map_reverse {A B} (f : A -> B) l : map f (reverse l) = reverse (map f l).
Proof. exact (fmap_reverse f l). Qed.

(** X27: what the History tab lists does not tell two toggles of a mark
    from none: the questions listed, newest first, have the same ids, in
    the list of all questions and in the list of the marked ones. *)
Theorem history_after_two_toggles (showMarkedOnly : bool)
  (questionId : list N) (st : App.State) :
  map id
    (historyItems showMarkedOnly
       (App.questions
          (App.handleToggleMark App.Written questionId
             (App.handleToggleMark App.Written questionId st))))
  = map id (historyItems showMarkedOnly (App.questions st)).
Proof.
  unfold App.handleToggleMark, App.saveQuestions.
  cbn [App.questions App.modalState].
  rewrite updateById_twice by done.
  unfold historyItems. rewrite !map_reverse. f_equal.
  induction (App.questions st) as [|q qs IH]; [by destruct showMarkedOnly|].
  destruct showMarkedOnly; cbn [App.updateById map List.filter] in *.
  - fold (App.updateById (fun q => App.toggleMarked (App.toggleMarked q))
            questionId qs).
    assert (flag (isMarked (if bool_decide (id q = questionId)
                            then App.toggleMarked (App.toggleMarked q) else q))
            = flag (isMarked q)) as ->.
    { case_bool_decide; [|done]. cbn. apply negb_involutive. }
    assert (id (if bool_decide (id q = questionId)
                then App.toggleMarked (App.toggleMarked q) else q) = id q)
      as Hid by (by case_bool_decide).
    destruct (flag (isMarked q)); cbn [map]; by rewrite ?Hid, IH.
  - f_equal; [by case_bool_decide|]. apply IH.
Qed.

(* ===================================================================== *)
(** ** Option lines, the documented format and [handleParse] *)
(* ===================================================================== *)

Lemma trimStart_app_ws l s :
  forallb isWhiteSpace l = true -> trimStart (l ++ s) = trimStart s.
Proof.
  induction l as [|c l IH]; [done|]. cbn.
  intros [-> Hl]%andb_true_iff. by apply IH.
Qed.

Lemma trimStart_app_nonblank s r :
  forallb isWhiteSpace s = false -> trimStart (s ++ r) = trimStart s ++ r.
Proof.
  induction s as [|c s IH]; [done|]. cbn.
  destruct (isWhiteSpace c); [exact IH|done].
Qed.

Lemma trimEnd_app_ws s r :
  forallb isWhiteSpace r = true -> trimEnd (s ++ r) = trimEnd s.
Proof.
  intros Hr. unfold trimEnd. rewrite reverse_app.
  by rewrite trimStart_app_ws by (by rewrite forallb_reverse).
Qed.

Lemma trimEnd_cons c l :
  isWhiteSpace c = false -> trimEnd (c :: l) = c :: trimEnd l.
Proof.
  intros Hc. unfold trimEnd. rewrite reverse_cons.
  destruct (forallb isWhiteSpace (reverse l)) eqn:E.
  - rewrite trimStart_app_ws by done. rewrite (trimStart_blank _ E).
    cbn. by rewrite Hc.
  - rewrite trimStart_app_nonblank by done.
    by rewrite reverse_app.
Qed.

Lemma trim_cons c l : isWhiteSpace c = false -> trim (c :: l) = c :: trimEnd l.
Proof.
  intros Hc. unfold trim. rewrite trimStart_fixed by done.
  by apply trimEnd_cons.
Qed.

Lemma trimEnd_split s :
  exists r, s = trimEnd s ++ r /\ forallb isWhiteSpace r = true.
Proof.
  destruct (trimStart_split (reverse s)) as (r & Hs & Hr).
  exists (reverse r). split; [|by rewrite forallb_reverse].
  unfold trimEnd. rewrite <- reverse_app, <- Hs. by rewrite reverse_involutive.
Qed.

Lemma trim_pad l x r :
  forallb isWhiteSpace l = true -> forallb isWhiteSpace r = true ->
  trim (l ++ x ++ r) = trim x.
Proof.
  intros Hl Hr. unfold trim. rewrite trimStart_app_ws by done.
  destruct (forallb isWhiteSpace x) eqn:Hx.
  - rewrite (trimStart_blank x Hx).
    rewrite trimStart_blank; [done|]. by rewrite forallb_app, Hx.
  - rewrite trimStart_app_nonblank by done. by apply trimEnd_app_ws.
Qed.

Lemma trim_trimEnd s : trim (trimEnd s) = trim s.
Proof.
  destruct (trimEnd_split s) as (r & Hs & Hr).
  rewrite Hs at 2. symmetry.
  rewrite <- (app_nil_l (trimEnd s ++ r)). by apply trim_pad.
Qed.

Lemma symbol_code_cases sym :
  sym ∈ SYMBOL_CODES -> sym = DOLLAR \/ sym = EURO \/ sym = YEN \/ sym = CENT.
Proof.
  unfold SYMBOL_CODES. rewrite !elem_of_cons, elem_of_nil. tauto.
Qed.

Lemma startsWith_nil s : startsWith s [] = true.
Proof. by destruct s. Qed.

Lemma startsEscaped_symbol sym t :
  sym ∈ SYMBOL_CODES -> startsEscaped (BACKSLASH :: sym :: t) = true.
Proof.
  intros Hs. unfold startsEscaped. cbn [startsWith].
  rewrite startsWith_nil.
  apply symbol_code_cases in Hs as [-> | [-> | [-> | ->]]]; reflexivity.
Qed.

Lemma startsEscaped_bare sym t :
  sym ∈ SYMBOL_CODES -> startsEscaped (sym :: t) = false.
Proof.
  intros Hs. unfold startsEscaped. cbn [startsWith].
  apply symbol_code_cases in Hs as [-> | [-> | [-> | ->]]]; reflexivity.
Qed.

Lemma isWhiteSpace_symbol sym : sym ∈ SYMBOL_CODES -> isWhiteSpace sym = false.
Proof.
  intros Hs.
  apply symbol_code_cases in Hs as [-> | [-> | [-> | ->]]]; reflexivity.
Qed.

Lemma recognise_bare sym rest :
  sym ∈ SYMBOL_CODES ->
  recognise (trim (sym :: rest)) = Some (Some [sym], trim rest).
Proof.
  intros Hs. rewrite trim_cons by (by apply isWhiteSpace_symbol).
  unfold recognise. rewrite startsEscaped_bare by done.
  rewrite <- (trim_trimEnd rest).
  apply symbol_code_cases in Hs as [-> | [-> | [-> | ->]]]; reflexivity.
Qed.

Lemma recognise_escaped sym rest :
  sym ∈ SYMBOL_CODES ->
  recognise (trim (BACKSLASH :: sym :: rest)) = Some (Some [sym], trim rest).
Proof.
  intros Hs. rewrite trim_cons by reflexivity.
  rewrite trimEnd_cons by (by apply isWhiteSpace_symbol).
  unfold recognise. rewrite startsEscaped_symbol by done.
  by rewrite <- (trim_trimEnd rest).
Qed.

(** X9: an option line may carry its symbol bare or after one backslash,
    and white space around the line does not count: both forms yield the
    same option, whose text is the trimmed rest of the line and which is
    correct exactly for the symbol [$]; the line yields that option when
    the rest is not blank and the symbol has not been seen in the block. *)
Theorem option_line_forms (seen : gset (list N)) (l r : list N) (sym : N)
  (rest : list N) :
  sym ∈ SYMBOL_CODES ->
  forallb isWhiteSpace l = true -> forallb isWhiteSpace r = true ->
  optionOfLine seen (l ++ (BACKSLASH :: sym :: rest) ++ r)
  = optionOfLine seen (sym :: rest)
  /\ optionOfLine seen (l ++ (sym :: rest) ++ r)
     = optionOfLine seen (sym :: rest)
  /\ (trim rest <> [] -> [sym] ∉ seen ->
      optionOfLine seen (sym :: rest)
      = (Some (mkOption (trim rest) (bool_decide ([sym] = [DOLLAR]))),
         {[ [sym] ]} ∪ seen)).
Proof.
  intros Hs Hl Hr. unfold optionOfLine.
  rewrite !trim_pad by done.
  rewrite recognise_escaped, recognise_bare by done.
  split; [done|]. split; [done|].
  intros Htxt Hseen. destruct (trim rest) as [|c t]; [done|].
  cbn [truthy negb orb]. by rewrite bool_decide_eq_false_2.
Qed.

Lemma option_line_forms_witness :
  (EURO ∈ SYMBOL_CODES
   /\ forallb isWhiteSpace (lit "  ") = true
   /\ forallb isWhiteSpace (lit " ") = true)
  /\ optionOfLine ∅ (lit "  " ++ (BACKSLASH :: EURO :: lit " B") ++ lit " ")
     = optionOfLine ∅ (EURO :: lit " B")
  /\ optionOfLine ∅ (EURO :: lit " B")
     = (Some (mkOption (lit "B") false), {[ [EURO] ]} ∪ ∅).
Proof.
  assert (EURO ∈ SYMBOL_CODES) as Hs by (right; left).
  destruct (option_line_forms ∅ (lit "  ") (lit " ") EURO (lit " B") Hs
              eq_refl eq_refl) as (H1 & _ & H3).
  split; [done|]. split; [exact H1|].
  rewrite H3; [reflexivity|discriminate|].
  intros H. by apply elem_of_empty in H.
Defined.

(** X10: [handleParse] hands the parsed questions to the bank exactly when
    the parser reported no error, and the batch it hands over is never
    empty; on an error the bank and the dialog are left as they were. *)
Theorem handleParse_correct (double_to_string : Z -> list N)
  (o : App.StorageOutcome) (txt : list N) (st : App.State) (w : World) :
  let r := fst (parseGeneratedText double_to_string txt w) in
  let st' := fst (handleParse double_to_string o txt st w) in
  (error r <> None -> st' = st)
  /\ (error r = None ->
      Parser.newQuestions r <> []
      /\ st' = App.handleSaveNewQuestions o (Parser.newQuestions r) st)
  /\ snd (handleParse double_to_string o txt st w)
     = snd (parseGeneratedText double_to_string txt w).
Proof.
  cbv zeta. unfold handleParse, bind.
  pose proof (parseGeneratedText_cases double_to_string txt w) as Hc.
  cbv zeta in Hc.
  destruct (parseGeneratedText double_to_string txt w) as [r w'].
  cbn [fst snd] in *.
  destruct Hc as [(-> & _)|[(-> & _)|[(-> & _)|(He & Hne & _)]]].
  1-3: cbn; by repeat split.
  rewrite He. cbn. by repeat split.
Qed.

Lemma handleParse_correct_witness :
  let st := idle [sampleQuestion true 7] in
  error (fst (parseGeneratedText (fun _ => lit "0.5") (lit "Q only")
                sampleWorld)) <> None
  /\ fst (handleParse (fun _ => lit "0.5") App.Written (lit "Q only") st
            sampleWorld) = st.
Proof.
  cbv zeta.
  assert (error (fst (parseGeneratedText (fun _ => lit "0.5") (lit "Q only")
                        sampleWorld)) <> None) as He
    by (vm_compute; discriminate).
  split; [exact He|].
  exact (proj1 (handleParse_correct _ App.Written _ _ _) He).
Defined.

Lemma documentedFormat_example :
  PARSING_FAILED
  = lit "Parsing failed. Please check your format. Example: "
    ++ documentedFormat (lit "Question Text") (lit "Correct Option")
         (lit "Incorrect Option") (lit "Explanation").
Proof. reflexivity. Qed.

Lemma split_from_absent sep c0 sep' s cur :
  sep = c0 :: sep' -> c0 ∉ s -> split_from sep s 0 cur = [reverse cur ++ s].
Proof.
  intros ->. revert cur. induction s as [|c s IH]; intros cur Hno.
  - cbn. by rewrite app_nil_r.
  - cbn [split_from startsWith].
    assert (c0 <> c) as Hc by (intros ->; apply Hno; left).
    apply N.eqb_neq in Hc. rewrite Hc. cbn [andb].
    rewrite IH by (intros H; apply Hno; by right).
    by rewrite reverse_cons, <- app_assoc.
Qed.

Lemma split_absent sep c0 sep' s :
  sep = c0 :: sep' -> c0 ∉ s -> split sep s = [s].
Proof. intros Hsep Hno. unfold split. by erewrite split_from_absent. Qed.

Lemma split_from_first sep c0 sep' a b cur :
  sep = c0 :: sep' -> c0 ∉ a ->
  split_from sep (a ++ sep ++ b) 0 cur
  = (reverse cur ++ a) :: split_from sep b 0 [].
Proof.
  intros Hsep. revert cur. induction a as [|c a IH]; intros cur Hno.
  - rewrite app_nil_r. cbn [app].
    assert (startsWith (sep ++ b) sep = true) as Hst
      by (apply startsWith_prefix; by exists b).
    rewrite Hsep in *. cbn [app split_from]. cbn [app] in Hst. rewrite Hst.
    cbn [length pred]. by rewrite split_from_skip.
  - cbn [app split_from].
    assert (startsWith (c :: a ++ sep ++ b) sep = false) as ->.
    { rewrite Hsep. cbn [startsWith].
      assert (c0 <> c) as Hc by (intros ->; apply Hno; left).
      apply N.eqb_neq in Hc. by rewrite Hc. }
    rewrite IH by (intros H; apply Hno; by right).
    by rewrite reverse_cons, <- app_assoc.
Qed.

Lemma split_first sep c0 sep' a b :
  sep = c0 :: sep' -> c0 ∉ a ->
  split sep (a ++ sep ++ b) = a :: split sep b.
Proof. intros Hsep Hno. unfold split. by erewrite split_from_first. Qed.

Lemma trimEnd_app_fixed s b :
  b <> [] -> trimEnd b = b -> trimEnd (s ++ b) = s ++ b.
Proof.
  intros Hb Hfix. unfold trimEnd in *. rewrite reverse_app.
  apply (f_equal reverse) in Hfix. rewrite reverse_involutive in Hfix.
  destruct (reverse b) as [|c t] eqn:E.
  { apply (f_equal reverse) in E. by rewrite reverse_involutive in E. }
  pose proof (trimStart_head _ _ _ Hfix) as Hc.
  cbn [app]. rewrite trimStart_fixed by done.
  change (c :: t ++ reverse s) with ((c :: t) ++ reverse s).
  rewrite <- E, <- reverse_app. by rewrite reverse_involutive.
Qed.

Lemma plain_head x : plain x -> exists c t, x = c :: t /\ isWhiteSpace c = false.
Proof.
  intros (Hne & Htrim & _). destruct x as [|c t]; [done|].
  exists c, t. split; [done|]. by apply (trim_head (c :: t) c t).
Qed.

Lemma plain_nonblank x : plain x -> forallb isWhiteSpace x = false.
Proof.
  intros (c & t & -> & Hc)%plain_head. cbn. by rewrite Hc.
Qed.

Lemma plain_trimEnd x : plain x -> trimEnd x = x.
Proof.
  intros Hx. destruct (plain_head x Hx) as (c & t & -> & Hc).
  destruct Hx as (_ & Htrim & _). unfold trim in Htrim.
  by rewrite trimStart_fixed in Htrim.
Qed.

Lemma plain_free x c :
  plain x -> c ∈ [BACKSLASH; INCREMENT; SECTION_SIGN; CARET] -> c ∉ x.
Proof.
  intros (_ & _ & Hx) Hc Hin.
  rewrite Forall_forall in Hx. by apply (Hx c Hin).
Qed.

Lemma truthy_trim_app l x r :
  forallb isWhiteSpace x = false -> truthy (trim (l ++ x ++ r)) = true.
Proof.
  intros Hx. rewrite truthy_trim, !forallb_app, Hx.
  by rewrite andb_false_r.
Qed.

(** A line that starts with one of the four symbols gives the option
    with the trimmed rest as its text, when that is not empty and the
    symbol is new. *)
Lemma optionOfLine_symbol seen sym rest :
  sym ∈ SYMBOL_CODES -> trim rest <> [] -> [sym] ∉ seen ->
  optionOfLine seen (sym :: rest)
  = (Some (mkOption (trim rest) (bool_decide ([sym] = [DOLLAR]))),
     {[ [sym] ]} ∪ seen).
Proof.
  intros Hs Htxt Hseen. unfold optionOfLine.
  rewrite recognise_bare by done.
  destruct (trim rest) as [|c t]; [done|].
  cbn [truthy negb orb]. by rewrite bool_decide_eq_false_2.
Qed.

Ltac solve_free :=
  rewrite ?not_elem_of_app, ?not_elem_of_cons; repeat split;
  first
    [ assumption
    | apply not_elem_of_nil
    | by (eapply plain_free;
          [eassumption
          |repeat first [apply list_elem_of_here | apply list_elem_of_further]])
    | by (let H := fresh in intros H; vm_compute in H; discriminate H)
    | by (let H := fresh in
          intros H; apply list_elem_of_In in H; vm_compute in H;
          intuition discriminate) ].

Lemma parsePair_documented qt a b e :
  plain qt -> plain a -> NEWLINE ∉ a -> plain b -> NEWLINE ∉ b -> plain e ->
  parsePair (qt ++ lit " ")
    ((lit " " ++ ((DOLLAR :: a) ++ [NEWLINE] ++ (EURO :: b)) ++ lit " ")
     ++ OPTIONS_DELIMITER
     ++ ((lit " " ++ e ++ lit " ") ++ EXPLANATION_DELIMITER ++ []))
  = Some (qt, [mkOption a true; mkOption b false], e).
Proof.
  intros Hqt Ha Hal Hb Hbl He. unfold parsePair.
  pose proof (plain_nonblank _ Hqt) as Nqt.
  pose proof (plain_nonblank _ Ha) as Na.
  pose proof (plain_nonblank _ Hb) as Nb.
  pose proof (plain_nonblank _ He) as Ne.
  rewrite (split_first OPTIONS_DELIMITER SECTION_SIGN (replicate 3 SECTION_SIGN))
    by (done || solve_free).
  rewrite (split_absent OPTIONS_DELIMITER SECTION_SIGN (replicate 3 SECTION_SIGN))
    by (done || solve_free).
  unfold nonblank at 1. cbn [List.filter].
  rewrite (truthy_trim_app (lit " ") _ (lit " ")) by reflexivity.
  assert (truthy (trim ((lit " " ++ e ++ lit " ")
                        ++ EXPLANATION_DELIMITER ++ [])) = true) as ->
    by (by rewrite truthy_trim, !forallb_app, Ne).
  cbv iota.
  rewrite (split_first EXPLANATION_DELIMITER CARET (replicate 4 CARET))
    by (done || solve_free).
  unfold nonblank. cbn [split split_from reverse rev_append List.filter].
  rewrite (truthy_trim_app (lit " ") e) by done.
  change (truthy (trim [])) with false. cbv iota.
  rewrite !trim_pad by done.
  destruct Hqt as (Hqt0 & Hqt1 & Hqtf). destruct He as (He0 & He1 & Hef).
  rewrite He1.
  rewrite <- (app_nil_l (qt ++ lit " ")), trim_pad by done.
  rewrite Hqt1.
  assert (trim ((DOLLAR :: a) ++ [NEWLINE] ++ EURO :: b)
          = (DOLLAR :: a) ++ [NEWLINE] ++ EURO :: b) as ->.
  { assert (a ++ [NEWLINE] ++ EURO :: b = (a ++ [NEWLINE; EURO]) ++ b) as Hassoc
      by (by rewrite <- app_assoc).
    cbn [app]. rewrite trim_cons by done. f_equal.
    change (a ++ NEWLINE :: EURO :: b) with (a ++ [NEWLINE] ++ EURO :: b).
    rewrite Hassoc.
    apply trimEnd_app_fixed; [by destruct Hb|by apply plain_trimEnd]. }
  rewrite (split_first [NEWLINE] NEWLINE []) by (done || solve_free).
  rewrite (split_absent [NEWLINE] NEWLINE []) by (done || solve_free).
  cbn [List.filter]. rewrite !trim_cons by done.
  cbn [truthy length Nat.eqb].
  destruct qt as [|cq tq]; [done|]. destruct e as [|ce te]; [done|].
  cbn [truthy negb orb]. f_equal. f_equal. f_equal.
  unfold buildOptions. cbn [mapLines].
  destruct Ha as (Ha0 & Ha1 & _). destruct Hb as (Hb0 & Hb1 & _).
  rewrite (optionOfLine_symbol ∅ DOLLAR a);
    [|by left|by rewrite Ha1|by apply not_elem_of_empty].
  rewrite (optionOfLine_symbol _ EURO b);
    [|by right; left|by rewrite Hb1|].
  - by rewrite Ha1, Hb1.
  - rewrite elem_of_union, elem_of_singleton. intros [[=]|[]%elem_of_empty].
Qed.

(** X8: a text written in the format that the message of the last error
    documents is accepted: with a question text, two option texts and
    an explanation that are not empty, carry no white space at their
    ends and contain no backslash and no delimiter character (the
    option texts no line break either), the parser returns exactly one
    question and no error; the question has that text and explanation,
    and its options are the two of the text, the one after [$] correct,
    in some order. *)
Theorem documented_format_accepted (double_to_string : Z -> list N)
  (qt a b e : list N) (w : World) :
  plain qt -> plain a -> NEWLINE ∉ a -> plain b -> NEWLINE ∉ b -> plain e ->
  exists q,
    fst (parseGeneratedText double_to_string (documentedFormat qt a b e) w)
    = mkResult [q] None
    /\ questionText q = qt
    /\ options q ≡ₚ [mkOption a true; mkOption b false]
    /\ explanation q = e.
Proof.
  intros Hqt Ha Hal Hb Hbl He.
  pose proof (plain_nonblank _ Hqt) as Nqt.
  pose proof (parsePair_documented qt a b e Hqt Ha Hal Hb Hbl He) as Hpair.
  unfold parseGeneratedText.
  rewrite unescape_no_backslash by (unfold documentedFormat; solve_free).
  unfold documentedFormat.
  assert (truthy (trim (qt ++ lit " ")) = true) as Hq
    by (by rewrite truthy_trim, forallb_app, Nqt).
  rewrite truthy_trim, <- (app_assoc qt), forallb_app, Nqt. cbn [andb negb].
  rewrite (app_assoc qt).
  rewrite (split_first PAIR_DELIMITER INCREMENT (replicate 4 INCREMENT))
    by (done || solve_free).
  rewrite (split_absent PAIR_DELIMITER INCREMENT (replicate 4 INCREMENT))
    by (done || solve_free).
  unfold nonblank. cbn [List.filter]. rewrite Hq.
  match goal with
  | |- context [truthy (trim ?x)] =>
      assert (truthy (trim x) = true) as -> by (by rewrite truthy_trim)
  end.
  cbn [length Nat.eqb Nat.modulo Nat.divmod fst snd orb negb Nat.sub].
  destruct (parseLoop_accept double_to_string 0 _ _ [] [] w _ _ _ Hpair eq_refl)
    as (q & w' & Hloop & Hq1 & Hq2 & Hq3 & _).
  unfold bind. rewrite Hloop. cbn.
  exists q. by repeat split.
Qed.

Lemma documented_format_accepted_witness :
  (plain (lit "Q?") /\ plain (lit "yes") /\ (NEWLINE ∉ lit "yes")
   /\ plain (lit "no") /\ (NEWLINE ∉ lit "no") /\ plain (lit "Why."))
  /\ exists q,
      fst (parseGeneratedText (fun _ => lit "0.5")
             (documentedFormat (lit "Q?") (lit "yes") (lit "no") (lit "Why."))
             sampleWorld)
      = mkResult [q] None
      /\ questionText q = lit "Q?"
      /\ options q ≡ₚ [mkOption (lit "yes") true; mkOption (lit "no") false]
      /\ explanation q = lit "Why.".
Proof.
  assert (forall x, x <> [] -> trim x = x ->
            forallb (fun c => bool_decide
                       (c ∉ [BACKSLASH; INCREMENT; SECTION_SIGN; CARET])) x
            = true -> plain x) as Hplain.
  { intros x H1 H2 H3. repeat split; [done..|].
    apply Forall_forall. intros c Hc%list_elem_of_In.
    rewrite forallb_forall in H3. exact (bool_decide_eq_true_1 _ (H3 c Hc)). }
  assert (forall x : list N, bool_decide (NEWLINE ∉ x) = true -> NEWLINE ∉ x)
    as Hline by (intros x; apply bool_decide_eq_true_1).
  assert (plain (lit "Q?")) as H1 by (by apply Hplain).
  assert (plain (lit "yes")) as H2 by (by apply Hplain).
  assert (plain (lit "no")) as H3 by (by apply Hplain).
  assert (plain (lit "Why.")) as H4 by (by apply Hplain).
  assert (NEWLINE ∉ lit "yes") as H5 by (by apply Hline).
  assert (NEWLINE ∉ lit "no") as H6 by (by apply Hline).
  split; [done|].
  exact (documented_format_accepted _ _ _ _ _ sampleWorld H1 H2 H5 H3 H6 H4).
Defined.

(** X28: the feedback of [handleParse] and what happened to the bank.  On
    an error of the parser the feedback is that error and the text stays
    in the text area.  On success the text area is cleared and the
    message counts the parsed questions; when it goes on to say that the
    oldest questions were removed, nothing has been removed or added: the
    bank is what it was and the capacity dialog is open with the batch
    pending.  When it does not, the bank is the old bank followed by the
    batch if the write succeeds, and unchanged if the write fails. *)
Theorem handleParse_feedback_correct (double_to_string : Z -> list N)
  (o : App.StorageOutcome) (txt : list N) (st : App.State) (w : World) :
  let r := fst (parseGeneratedText double_to_string txt w) in
  let fb :=
    fst (handleParse_feedback double_to_string (length (App.questions st))
           txt w) in
  let st' := fst (handleParse double_to_string o txt st w) in
  (forall e, error r = Some e -> fb = (mkFeedback Error e, txt))
  /\ (error r = None ->
      exists isCapped,
        fb = (mkFeedback Success
                (successMessage (length (Parser.newQuestions r)) isCapped), [])
        /\ (isCapped = true ->
            App.questions st' = App.questions st
            /\ App.stored st' = App.stored st
            /\ App.modalState st' = App.mkModal true (Parser.newQuestions r))
        /\ (isCapped = false ->
            App.modalState st' = App.modalState st
            /\ (o = App.Written ->
                App.questions st' = App.questions st ++ Parser.newQuestions r)
            /\ (o = App.Threw -> st' = st))).
Proof.
  cbv zeta. unfold handleParse, handleParse_feedback, bind.
  pose proof (parseGeneratedText_cases double_to_string txt w) as Hc.
  cbv zeta in Hc.
  destruct (parseGeneratedText double_to_string txt w) as [r w'].
  cbn [fst snd] in *.
  destruct Hc as [(-> & _)|[(-> & _)|[(-> & _)|(He & Hne & _)]]].
  1-3: cbn [error];
       match goal with
       | |- context [truthy ?m] => change (truthy m) with true
       end;
       cbv iota; unfold ret; cbn [fst];
       (split; [intros e He; congruence|intros He; discriminate He]).
  rewrite He. cbn [ret fst snd]. split; [done|]. intros _.
  eexists. split; [reflexivity|]. unfold App.handleSaveNewQuestions.
  destruct (_ <? _)%nat; (split; intros Hc); try discriminate Hc.
  - done.
  - split; [by destruct o|]. split; by intros ->.
Qed.

Lemma handleParse_feedback_correct_witness :
  let st := idle (sampleBank true 0 App.MAX_QUESTIONS) in
  let r := fst (parseGeneratedText (fun _ => lit "0.5") samplePair
                  sampleWorld) in
  error r = None
  /\ exists isCapped,
      fst (handleParse_feedback (fun _ => lit "0.5")
             (length (App.questions st)) samplePair sampleWorld)
      = (mkFeedback Success
           (successMessage (length (Parser.newQuestions r)) isCapped), [])
      /\ (isCapped = true ->
          App.questions
            (fst (handleParse (fun _ => lit "0.5") App.Written samplePair st
                    sampleWorld))
          = App.questions st).
Proof.
  cbv zeta.
  assert (error (fst (parseGeneratedText (fun _ => lit "0.5") samplePair
                        sampleWorld)) = None) as He by reflexivity.
  split; [exact He|].
  destruct (proj2 (handleParse_feedback_correct (fun _ => lit "0.5")
                     App.Written samplePair
                     (idle (sampleBank true 0 App.MAX_QUESTIONS))
                     sampleWorld) He)
    as (c & Hfb & Hcap & _).
  exists c. split; [exact Hfb|]. intros Hc. exact (proj1 (Hcap Hc)).
Defined.
